(** * WhatsApp menu bot: conversation state machine and chat-log sink

    A shallow embedding of [whatsapp-chatbot-backend/index.js].

    The JavaScript module keeps its state in module-level variables (the
    [conversations] map, the [sheets] client), in heap-allocated
    [Conversation] objects that are shared by reference, and in the timers
    of the host event loop.  All of it is gathered in one [World] record
    and the functions of the module become computations of a small
    state-and-exception monad [JS] over that record.

    What the host provides (the transport socket, the spreadsheet client,
    [String.prototype.toLowerCase]) is collected in the class [Host]: the
    outcome of the n-th remote call is an arbitrary boolean, so every
    theorem holds whatever the network does.

    The program is given twice.  The section [Bot] has each function as
    it runs when nothing interrupts it: the [await]s are sequenced in
    program order, a remote call settles at once and a back-off lasts
    exactly as long as it says.  What a single call does by itself (what
    it logs, what it sends, how often it retries) is stated there.  The
    module [Async] has the functions with their [await]s, at each of
    which the event loop takes over: it delivers other events, resumes
    other calls and runs the callbacks of the timers that are due, for
    as long as the awaited promise takes to settle.  What a handler does
    to a conversation while timers are pending is stated there, for the
    runs in which nothing else comes in between, and the runs in which
    a timer does are shown for what they are. *)

From stdpp Require Import base option list gmap strings pretty.
From Stdlib Require Import Ascii ZArith Lia.
From Stdlib Require String.

Local Open Scope Z_scope.

(** ** Strings *)

(** The line feed written ["\n"] in the source. *)
Definition LF : string := String (ascii_of_nat 10) EmptyString.

(** The ASCII part of the ECMAScript [WhiteSpace] and [LineTerminator]
    classes: TAB, LF, VT, FF, CR and SPACE.  Every string that is trimmed
    in this program is a literal of 7-bit characters. *)
Definition isWhiteSpace (c : ascii) : bool :=
  let n := nat_of_ascii c in
  ((9 <=? n)%nat && (n <=? 13)%nat) || (n =? 32)%nat.

Fixpoint trimStart (s : string) : string :=
  match s with
  | String c s' => if isWhiteSpace c then trimStart s' else s
  | EmptyString => EmptyString
  end.

Definition trimEnd (s : string) : string :=
  String.rev (trimStart (String.rev s)).

(** [String.prototype.trim]. *)
Definition trim (s : string) : string := trimEnd (trimStart s).

(** ** Menus *)

(** [formatMenu]: the [forEach] callback appends one numbered line per
    item, [index] counting from 0; the result is trimmed. *)
Fixpoint formatMenu_forEach (message : string) (index : nat)
    (items : list string) : string :=
  match items with
  | [] => message
  | item :: items' =>
      formatMenu_forEach
        (message +:+ pretty (index + 1)%nat +:+ ". " +:+ item +:+ LF)
        (S index) items'
  end.

Definition formatMenu (title : string) (items : list string) : string :=
  let message := title +:+ ":" +:+ LF in
  trim (formatMenu_forEach message 0 items).

Module MENUS.
Definition main : list string :=
  ["Info"; "Chat dengan CS"; "Akhiri percakapan"; "Dummy Menu"; "Produk"].
Definition info : list string := ["PDRB"; "Kembali ke menu sebelumnya"].
Definition pdrb : list string :=
  ["Nilai PDRB sebesar 1 juta."; "Kembali ke menu sebelumnya"].
Definition dummyMenu : list string :=
  ["Dummy Submenu 1"; "Kembali ke menu sebelumnya"].
Definition dummySubmenu1 : list string := ["Kembali ke menu sebelumnya"].
Definition produk : list string :=
  ["Produk 1"; "Produk 2"; "Produk 3"; "Kembali ke menu sebelumnya"].
Definition produk1 : list string :=
  ["Detail Produk 1"; "Kembali ke menu sebelumnya"].
End MENUS.

(** ** Data model *)

(** [INACTIVITY_TIMEOUT = 2 * 60 * 1000] milliseconds. *)
Definition INACTIVITY_TIMEOUT : Z := 2 * 60 * 1000.

(** A [Conversation] object.  [timeout] is [null] ([None]) until the first
    [resetTimeout]; afterwards it holds the handle returned by
    [setTimeout]. *)
Record Conversation := mkConversation {
  state : string;
  csActive : bool;
  timeout : option nat
}.

(** [new Conversation()]. *)
Definition Conversation_new : Conversation :=
  {| state := "main"; csActive := false; timeout := None |}.

(** A pending timer of the event loop: the [jid] captured by the callback
    of [resetTimeout] and the time at which it is due. *)
Record Timer := mkTimer {
  timer_jid : string;
  timer_due : Z
}.

(** The row [[timestamp, from, message, senderType]] of a chat log. *)
Record Row := mkRow {
  row_timestamp : Z;
  row_from : string;
  row_message : string;
  row_senderType : string
}.

(** What the program does to the outside, in order. *)
Inductive Effect :=
  | AppendChatLog (values : Row)             (* appendChatLog is entered *)
  | RemoteAppend (values : Row) (ok : bool)  (* sheets...values.append *)
  | Backoff (ms : Z)                         (* await setTimeout(res, ms) *)
  | LoggerError (text : string)              (* logger.error *)
  | SockSend (jid text : string) (ok : bool) (* sock.sendMessage *).

(** Inbound messages, as far as [handleMessage] reads them. *)
Record MessageKey := mkKey {
  remoteJid : string;
  fromMe : bool
}.

Record ExtendedTextMessage := mkExtended {
  text : option string
}.

Record Message := mkMessage {
  conversation : option string;
  extendedTextMessage : option ExtendedTextMessage
}.

Record WAMessage := mkWAMessage {
  key : MessageKey;
  message : option Message
}.

(** The argument of the ['messages.upsert'] listener. *)
Record Upsert := mkUpsert {
  messages : option (list WAMessage);
  type : string
}.

(** The state of the module and of the event loop.  [conversations] maps
    a jid to the identity of its [Conversation]; the objects live in
    [heap], so that a handler still holding a reference can write to an
    object that was deleted from the map.  [sheets] tells whether the
    spreadsheet client was initialised.  [appends] and [sends] count the
    remote calls made so far. *)
Record World := mkWorld {
  conversations : gmap string nat;
  heap : gmap nat Conversation;
  timers : gmap nat Timer;
  next_timer : nat;
  sheets : bool;
  now : Z;
  appends : nat;
  sends : nat;
  trace : list Effect
}.

Definition set_conversations (f : gmap string nat → gmap string nat)
    (w : World) : World :=
  mkWorld (f (conversations w)) (heap w) (timers w) (next_timer w)
          (sheets w) (now w) (appends w) (sends w) (trace w).

Definition set_heap (f : gmap nat Conversation → gmap nat Conversation)
    (w : World) : World :=
  mkWorld (conversations w) (f (heap w)) (timers w) (next_timer w)
          (sheets w) (now w) (appends w) (sends w) (trace w).

Definition set_timers (f : gmap nat Timer → gmap nat Timer)
    (w : World) : World :=
  mkWorld (conversations w) (heap w) (f (timers w)) (next_timer w)
          (sheets w) (now w) (appends w) (sends w) (trace w).

Definition set_next_timer (n : nat) (w : World) : World :=
  mkWorld (conversations w) (heap w) (timers w) n
          (sheets w) (now w) (appends w) (sends w) (trace w).

Definition set_now (t : Z) (w : World) : World :=
  mkWorld (conversations w) (heap w) (timers w) (next_timer w)
          (sheets w) t (appends w) (sends w) (trace w).

Definition set_appends (n : nat) (w : World) : World :=
  mkWorld (conversations w) (heap w) (timers w) (next_timer w)
          (sheets w) (now w) n (sends w) (trace w).

Definition set_sends (n : nat) (w : World) : World :=
  mkWorld (conversations w) (heap w) (timers w) (next_timer w)
          (sheets w) (now w) (appends w) n (trace w).

Definition emit (e : Effect) (w : World) : World :=
  mkWorld (conversations w) (heap w) (timers w) (next_timer w)
          (sheets w) (now w) (appends w) (sends w) (trace w ++ [e]).

(** The world right after [startBot]: no conversation, no timer, the
    spreadsheet client initialised. *)
Definition initial_world : World :=
  mkWorld ∅ ∅ ∅ 0 true 0 0 0 [].

(** ** The monad of JavaScript computations *)

Inductive Thrown :=
  | TypeError      (* property access on undefined *)
  | AppendFailed   (* the remote append rejected *)
  | SendFailed     (* the transport send rejected *).

Inductive Completion (A : Type) :=
  | Normal (a : A)
  | Throw (e : Thrown).
Arguments Normal {A} a.
Arguments Throw {A} e.

(** A computation runs in a world and completes normally or abruptly;
    the writes made before a [throw] stay. *)
Definition JS (A : Type) : Type := World → Completion A * World.

#[export] Instance JS_ret : MRet JS := λ A a w, (Normal a, w).

#[export] Instance JS_bind : MBind JS := λ A B f m w,
  match m w with
  | (Normal a, w') => f a w'
  | (Throw e, w') => (Throw e, w')
  end.

Definition throw {A} (e : Thrown) : JS A := λ w, (Throw e, w).

(** [try { m } catch (error) { h error }] *)
Definition try_catch {A} (m : JS A) (h : Thrown → JS A) : JS A := λ w,
  match m w with
  | (Normal a, w') => (Normal a, w')
  | (Throw e, w') => h e w'
  end.

Definition gets {A} (f : World → A) : JS A := λ w, (Normal (f w), w).
Definition modify (f : World → World) : JS unit := λ w, (Normal tt, f w).

(** [switch (x) { case k: ...; break; ... default: ... }] on strings. *)
Fixpoint switch {A} (x : string) (cases : list (string * A)) (default : A) : A :=
  match cases with
  | [] => default
  | (k, body) :: cases' =>
      if String.eqb x k then body else switch x cases' default
  end.

(** ** The host *)

(** What the run-time environment decides: the result of
    [String.prototype.toLowerCase], and whether the n-th call of
    [sheets.spreadsheets.values.append], respectively of
    [sock.sendMessage], resolves ([true]) or rejects ([false]). *)
Class Host := mkHost {
  toLowerCase : string → string;
  append_resolves : nat → bool;
  send_resolves : nat → bool
}.

(** ** The functions of the module, uninterrupted *)

Section Bot.
Context `{Host}.

(** *** Primitives of the host *)

Definition logger_error (text : string) : JS unit :=
  modify (emit (LoggerError text)).

Definition sheets_values_append (values : Row) : JS unit := λ w,
  let ok := append_resolves (appends w) in
  (if ok then Normal tt else Throw AppendFailed,
   emit (RemoteAppend values ok) (set_appends (S (appends w)) w)).

Definition sock_sendMessage (jid text : string) : JS unit := λ w,
  let ok := send_resolves (sends w) in
  (if ok then Normal tt else Throw SendFailed,
   emit (SockSend jid text ok) (set_sends (S (sends w)) w)).

(** [await new Promise(res => setTimeout(res, ms))], with nothing else
    to run in the meantime: the clock moves on by [ms]. *)
Definition sleep (ms : Z) : JS unit :=
  modify (λ w, emit (Backoff ms) (set_now (now w + ms) w)).

(** [setTimeout] with the callback of [resetTimeout], which captures
    [jid]; the handle is never reused. *)
Definition setTimeout (jid : string) (delay : Z) : JS nat := λ w,
  let id := next_timer w in
  (Normal id,
   set_next_timer (S id)
     (set_timers (insert id (mkTimer jid (now w + delay))) w)).

Definition clearTimeout (id : nat) : JS unit :=
  modify (set_timers (delete id)).

(** [getCurrentTimestamp]: the clock is read; the ISO 8601 rendering of
    the instant is left out and the row keeps the instant itself. *)
Definition getCurrentTimestamp : JS Z := gets now.

(** *** Objects and the [conversations] map *)

(** [new Conversation()] allocates a fresh object. *)
Definition new_Conversation : JS nat := λ w,
  let l := fresh (dom (heap w)) in
  (Normal l, set_heap (insert l Conversation_new) w).

(** Dereferencing the result of [conversations.get]: a property access on
    [undefined] throws. *)
Definition deref (o : option nat) : JS (nat * Conversation) := λ w,
  match o with
  | Some l =>
      match heap w !! l with
      | Some c => (Normal (l, c), w)
      | None => (Throw TypeError, w)
      end
  | None => (Throw TypeError, w)
  end.

Definition read (l : nat) : JS Conversation :=
  '(_, c) ← deref (Some l); mret c.

Definition write (l : nat) (f : Conversation → Conversation) : JS unit :=
  c ← read l; modify (set_heap (insert l (f c))).

Definition set_state (s : string) (c : Conversation) : Conversation :=
  mkConversation s (csActive c) (timeout c).
Definition set_csActive (b : bool) (c : Conversation) : Conversation :=
  mkConversation (state c) b (timeout c).
Definition set_timeout (t : option nat) (c : Conversation) : Conversation :=
  mkConversation (state c) (csActive c) t.

Definition conversations_has (jid : string) : JS bool :=
  gets (λ w, bool_decide (is_Some (conversations w !! jid))).
Definition conversations_get (jid : string) : JS (option nat) :=
  gets (λ w, conversations w !! jid).
Definition conversations_set (jid : string) (l : nat) : JS unit :=
  modify (set_conversations (insert jid l)).
Definition conversations_delete (jid : string) : JS unit :=
  modify (set_conversations (delete jid)).

(** *** [appendChatLog] *)

(** The [for] loop over [attempt = 1 .. retries]; [todo] is the number of
    iterations left, [retries + 1 - attempt]. *)
Fixpoint appendChatLog_for (todo attempt retries : nat) (values : Row)
    : JS unit :=
  match todo with
  | O => mret tt
  | S todo' =>
      ok ← try_catch (sheets_values_append values ;; mret true)
             (λ error,
                logger_error ("Error appending chat log (attempt "
                              +:+ pretty attempt +:+ "):") ;;
                (if (attempt =? retries)%nat
                 then logger_error "Max retries reached for appending chat log."
                 else sleep (1000 * Z.of_nat attempt)) ;;
                mret false);
      if ok : bool then mret tt (* break *)
      else appendChatLog_for todo' (S attempt) retries values
  end.

Definition appendChatLog (timestamp : Z) (from message senderType : string)
    (retries : nat) : JS unit :=
  let values := mkRow timestamp from message senderType in
  modify (emit (AppendChatLog values)) ;;
  client ← gets sheets;
  if negb client then mret tt
  else appendChatLog_for retries 1 retries values.

(** *** [sendMessage] *)

Definition bot_signature : string := LF +:+ LF +:+ "chat digenerate oleh bot".

Definition sendMessage (jid message : string) (isBot : bool) : JS unit :=
  let finalMessage := if isBot then message +:+ bot_signature else message in
  try_catch (sock_sendMessage jid finalMessage)
    (λ error, logger_error "Failed to send message:").

(** *** [Conversation.resetTimeout] *)

Definition inactivity_notice : string :=
  "Percakapan diakhiri karena tidak ada jawaban selama 2 menit.".

(** The callback armed by [resetTimeout]. *)
Definition resetTimeout_callback (jid : string) : JS unit :=
  sendMessage jid inactivity_notice true ;;
  conversations_delete jid.

Definition resetTimeout (this : nat) (jid : string) : JS unit :=
  c ← read this;
  match timeout c with
  | Some t => clearTimeout t
  | None => mret tt
  end ;;
  t ← setTimeout jid INACTIVITY_TIMEOUT;
  write this (set_timeout (Some t)).

(** *** Handlers for each menu state *)

Definition invalid_choice : string :=
  "Pilihan tidak valid. Silakan pilih menu:" +:+ LF.

Definition handleMainMenu (jid messageText : string) (conv : nat) : JS unit :=
  switch messageText
    [ ("1", write conv (set_state "info") ;;
            sendMessage jid (formatMenu "Menu Info" MENUS.info) true);
      ("2", write conv (set_csActive true) ;;
            sendMessage jid "mohon tunggu sebentar." true);
      ("3", sendMessage jid "Percakapan diakhiri. Terima kasih." true ;;
            conversations_delete jid);
      ("4", write conv (set_state "dummyMenu") ;;
            sendMessage jid (formatMenu "Dummy Menu" MENUS.dummyMenu) true);
      ("5", write conv (set_state "produk") ;;
            sendMessage jid (formatMenu "Produk" MENUS.produk) true) ]
    (sendMessage jid (invalid_choice +:+ formatMenu "Menu" MENUS.main) true) ;;
  resetTimeout conv jid.

Definition handleInfoMenu (jid messageText : string) (conv : nat) : JS unit :=
  switch messageText
    [ ("1", write conv (set_state "pdrb") ;;
            sendMessage jid (formatMenu "Menu PDRB" MENUS.pdrb) true);
      ("2", write conv (set_state "main") ;;
            sendMessage jid (formatMenu "Menu" MENUS.main) true) ]
    (sendMessage jid (invalid_choice +:+ formatMenu "Menu Info" MENUS.info) true) ;;
  resetTimeout conv jid.

Definition handlePdrbMenu (jid messageText : string) (conv : nat) : JS unit :=
  switch messageText
    [ ("1", write conv (set_state "info") ;;
            sendMessage jid (formatMenu "Menu Info" MENUS.info) true) ]
    (sendMessage jid (invalid_choice +:+ formatMenu "Menu PDRB" MENUS.pdrb) true) ;;
  resetTimeout conv jid.

Definition handleDummyMenu (jid messageText : string) (conv : nat) : JS unit :=
  switch messageText
    [ ("1", write conv (set_state "dummySubmenu1") ;;
            sendMessage jid
              (formatMenu "Dummy Submenu 1" MENUS.dummySubmenu1) true);
      ("2", write conv (set_state "main") ;;
            sendMessage jid (formatMenu "Menu" MENUS.main) true) ]
    (sendMessage jid
       (invalid_choice +:+ formatMenu "Dummy Menu" MENUS.dummyMenu) true) ;;
  resetTimeout conv jid.

Definition handleDummySubmenu1 (jid messageText : string) (conv : nat)
    : JS unit :=
  switch messageText
    [ ("1", write conv (set_state "dummyMenu") ;;
            sendMessage jid (formatMenu "Dummy Menu" MENUS.dummyMenu) true) ]
    (sendMessage jid
       (invalid_choice +:+ formatMenu "Dummy Submenu 1" MENUS.dummySubmenu1)
       true) ;;
  resetTimeout conv jid.

Definition handleProdukMenu (jid messageText : string) (conv : nat) : JS unit :=
  switch messageText
    [ ("1", write conv (set_state "produk1") ;;
            sendMessage jid (formatMenu "Detail Produk 1" MENUS.produk1) true);
      ("2", sendMessage jid (formatMenu "Produk" MENUS.produk) true);
      ("3", sendMessage jid (formatMenu "Produk" MENUS.produk) true);
      ("4", write conv (set_state "main") ;;
            sendMessage jid (formatMenu "Menu" MENUS.main) true) ]
    (sendMessage jid (invalid_choice +:+ formatMenu "Produk" MENUS.produk) true) ;;
  resetTimeout conv jid.

Definition handleProduk1Menu (jid messageText : string) (conv : nat)
    : JS unit :=
  switch messageText
    [ ("1", write conv (set_state "produk") ;;
            sendMessage jid (formatMenu "Produk" MENUS.produk) true) ]
    (sendMessage jid
       (invalid_choice +:+ formatMenu "Detail Produk 1" MENUS.produk1) true) ;;
  resetTimeout conv jid.

(** *** [handleMessage] *)

(** A string operand of [||] or [&&] is truthy when it is defined and not
    empty. *)
Definition truthy (o : option string) : bool :=
  match o with
  | Some s => negb (String.eqb s EmptyString)
  | None => false
  end.

(** [msg.message.conversation
     || (msg.message.extendedTextMessage
         && msg.message.extendedTextMessage.text)
     || ""] *)
Definition messageText_of (m : Message) : string :=
  let extended :=
    match extendedTextMessage m with
    | Some e => text e
    | None => None
    end in
  if truthy (conversation m) then default EmptyString (conversation m)
  else if truthy extended then default EmptyString extended
  else EmptyString.

Definition welcome : string := "Halo! Selamat datang." +:+ LF.

Definition handleMessage (msg : WAMessage) : JS unit :=
  match message msg with
  | None => mret tt
  | Some m =>
      if fromMe (key msg) then mret tt
      else
        let jid := remoteJid (key msg) in
        let messageText := messageText_of m in
        (* Log user message *)
        timestamp ← getCurrentTimestamp;
        appendChatLog timestamp jid messageText "user" 3 ;;
        (* Initialize conversation if new user *)
        known ← conversations_has jid;
        if negb known then
          l ← new_Conversation;
          conversations_set jid l ;;
          sendMessage jid (welcome +:+ formatMenu "Menu" MENUS.main) true ;;
          o ← conversations_get jid;
          '(this, _) ← deref o;
          resetTimeout this jid
        else
          o ← conversations_get jid;
          '(conv, c) ← deref o;
          (* Handle customer service active state *)
          if csActive c then
            if String.eqb (toLowerCase messageText) "terima kasih" then
              write conv (set_csActive false) ;;
              write conv (set_state "main") ;;
              sendMessage jid "Percakapan kembali diambil alih oleh bot." true ;;
              resetTimeout conv jid
            else
              resetTimeout conv jid
          else
            (* Menu navigation logic *)
            switch (state c)
              [ ("main", handleMainMenu jid messageText conv);
                ("info", handleInfoMenu jid messageText conv);
                ("pdrb", handlePdrbMenu jid messageText conv);
                ("dummyMenu", handleDummyMenu jid messageText conv);
                ("dummySubmenu1", handleDummySubmenu1 jid messageText conv);
                ("produk", handleProdukMenu jid messageText conv);
                ("produk1", handleProduk1Menu jid messageText conv) ]
              (write conv (set_state "main") ;;
               sendMessage jid (formatMenu "Menu" MENUS.main) true ;;
               resetTimeout conv jid)
  end.

(** The two continuations of [handleMessage] once the inbound text is
    logged, named so that lemmas can speak of them: the [if] branch of a
    new user, and what follows [const conv = conversations.get(jid)]. *)
Definition handleMessage_new (jid : string) : JS unit :=
  l ← new_Conversation;
  conversations_set jid l ;;
  sendMessage jid (welcome +:+ formatMenu "Menu" MENUS.main) true ;;
  o ← conversations_get jid;
  '(this, _) ← deref o;
  resetTimeout this jid.

Definition handleMessage_known (jid messageText : string) (conv : nat)
    (c : Conversation) : JS unit :=
  if csActive c then
    if String.eqb (toLowerCase messageText) "terima kasih" then
      write conv (set_csActive false) ;;
      write conv (set_state "main") ;;
      sendMessage jid "Percakapan kembali diambil alih oleh bot." true ;;
      resetTimeout conv jid
    else
      resetTimeout conv jid
  else
    switch (state c)
      [ ("main", handleMainMenu jid messageText conv);
        ("info", handleInfoMenu jid messageText conv);
        ("pdrb", handlePdrbMenu jid messageText conv);
        ("dummyMenu", handleDummyMenu jid messageText conv);
        ("dummySubmenu1", handleDummySubmenu1 jid messageText conv);
        ("produk", handleProdukMenu jid messageText conv);
        ("produk1", handleProduk1Menu jid messageText conv) ]
      (write conv (set_state "main") ;;
       sendMessage jid (formatMenu "Menu" MENUS.main) true ;;
       resetTimeout conv jid).

(** *** The event loop *)

(** The ['messages.upsert'] listener registered by [startBot].
    [m.messages[0]] of an empty array is [undefined], and [handleMessage]
    then throws at [msg.message]. *)
Definition on_messages_upsert (m : Upsert) : JS unit :=
  match messages m with
  | None => mret tt
  | Some batch =>
      if negb (String.eqb (type m) "notify") then mret tt
      else
        match batch !! 0%nat with
        | Some msg => handleMessage msg
        | None => throw TypeError
        end
  end.

(** The loop when no callback is ever suspended: each runs to its end
    before the loop picks up the next. *)

(** What the event loop can pick up next. *)
Inductive Task :=
  | MessagesUpsert (m : Upsert)
  | TimerExpires (id : nat)
  | TimePasses (ms : Z).

(** One turn of the loop.  A timer runs its callback once, when it is
    pending and due. *)
Inductive turn : World → Task → Completion unit * World → Prop :=
  | turn_upsert w m :
      turn w (MessagesUpsert m) (on_messages_upsert m w)
  | turn_timer w id t :
      timers w !! id = Some t →
      timer_due t <= now w →
      turn w (TimerExpires id)
        (resetTimeout_callback (timer_jid t) (set_timers (delete id) w))
  | turn_time w ms :
      0 <= ms →
      turn w (TimePasses ms) (Normal tt, set_now (now w + ms) w).

(** The worlds the event loop can reach from the initial one. *)
Inductive reachable : World → Prop :=
  | reachable_initial : reachable initial_world
  | reachable_turn w task p : reachable w → turn w task p → reachable p.2.

End Bot.

(** ** Asynchronous functions *)

(** The functions of the section above run each call to its end in one
    go.  An [async] function, though, runs only until it awaits a
    promise that is still pending: the event loop resumes it once the
    promise has settled, and runs whatever else is ready in between (the
    callback of a timer that is due, the listener of another event, the
    rest of another call).  An [await] of a promise that is settled
    within the same turn (the promise of an [async] function of the
    module that has come to its end) is resumed before the loop picks
    up anything else, and does not show here.  The program awaits three
    kinds of pending promise. *)
Inductive Request :=
  | AppendRequest (values : Row)     (* sheets.spreadsheets.values.append *)
  | SendRequest (jid text : string)  (* sock.sendMessage *)
  | Delay (ms : Z)          (* new Promise(res => setTimeout(res, ms)) *).

(** How far a call gets from a world: to its completion, or to an
    [await], with the world it has made so far and the rest of its body,
    which will start from the world the event loop has by then. *)
Inductive Run (A : Type) : Type :=
  | Finished (c : Completion A) (w : World)
  | Awaiting (request : Request) (w : World) (k : World → Run A).
Arguments Finished {A} c w.
Arguments Awaiting {A} request w k.

Definition Co (A : Type) : Type := World → Run A.

Fixpoint Run_bind {A B} (r : Run A) (f : A → Co B) : Run B :=
  match r with
  | Finished (Normal a) w => f a w
  | Finished (Throw e) w => Finished (Throw e) w
  | Awaiting request w k => Awaiting request w (λ v, Run_bind (k v) f)
  end.

Fixpoint Run_catch {A} (r : Run A) (h : Thrown → Co A) : Run A :=
  match r with
  | Finished (Normal a) w => Finished (Normal a) w
  | Finished (Throw e) w => h e w
  | Awaiting request w k => Awaiting request w (λ v, Run_catch (k v) h)
  end.

#[export] Instance Co_ret : MRet Co := λ A a w, Finished (Normal a) w.

#[export] Instance Co_bind : MBind Co := λ A B f m w, Run_bind (m w) f.

(** A stretch of code without [await]. *)
Definition sync {A} (m : JS A) : Co A := λ w,
  let '(c, w') := m w in Finished c w'.

(** [await] of a pending promise that settles as [settled]. *)
Definition await (request : Request) (settled : Completion unit) : Co unit :=
  λ w, Awaiting request w (λ v, Finished settled v).

(** The functions of the module with their [await]s, statement by
    statement as in the section above.  The functions without [await]
    ([resetTimeout], the accesses to the map and to the objects,
    [logger.error], [getCurrentTimestamp]) are those of that section. *)
Module Async.
Section Bot.
Context `{Host}.

(** [try { m } catch (error) { h error }] *)
Definition try_catch {A} (m : Co A) (h : Thrown → Co A) : Co A := λ w,
  Run_catch (m w) h.

(** The call is issued, and its promise settles later; whether it
    will resolve is the host's choice for the n-th call. *)
Definition sheets_values_append (values : Row) : Co unit := λ w,
  let ok := append_resolves (appends w) in
  await (AppendRequest values) (if ok then Normal tt else Throw AppendFailed)
    (emit (RemoteAppend values ok) (set_appends (S (appends w)) w)).

Definition sock_sendMessage (jid text : string) : Co unit := λ w,
  let ok := send_resolves (sends w) in
  await (SendRequest jid text) (if ok then Normal tt else Throw SendFailed)
    (emit (SockSend jid text ok) (set_sends (S (sends w)) w)).

(** [await new Promise(res => setTimeout(res, ms))] *)
Definition sleep (ms : Z) : Co unit := λ w,
  await (Delay ms) (Normal tt) (emit (Backoff ms) w).

Fixpoint appendChatLog_for (todo attempt retries : nat) (values : Row)
    : Co unit :=
  match todo with
  | O => mret tt
  | S todo' =>
      ok ← try_catch (sheets_values_append values ;; mret true)
             (λ error,
                sync (logger_error ("Error appending chat log (attempt "
                                    +:+ pretty attempt +:+ "):")) ;;
                (if (attempt =? retries)%nat
                 then sync (logger_error
                              "Max retries reached for appending chat log.")
                 else sleep (1000 * Z.of_nat attempt)) ;;
                mret false);
      if ok : bool then mret tt (* break *)
      else appendChatLog_for todo' (S attempt) retries values
  end.

Definition appendChatLog (timestamp : Z) (from message senderType : string)
    (retries : nat) : Co unit :=
  let values := mkRow timestamp from message senderType in
  sync (modify (emit (AppendChatLog values))) ;;
  client ← sync (gets sheets);
  if negb client then mret tt
  else appendChatLog_for retries 1 retries values.

Definition sendMessage (jid message : string) (isBot : bool) : Co unit :=
  let finalMessage := if isBot then message +:+ bot_signature else message in
  try_catch (sock_sendMessage jid finalMessage)
    (λ error, sync (logger_error "Failed to send message:")).

(** The callback armed by [resetTimeout]. *)
Definition resetTimeout_callback (jid : string) : Co unit :=
  sendMessage jid inactivity_notice true ;;
  sync (conversations_delete jid).

Definition handleMainMenu (jid messageText : string) (conv : nat) : Co unit :=
  switch messageText
    [ ("1", sync (write conv (set_state "info")) ;;
            sendMessage jid (formatMenu "Menu Info" MENUS.info) true);
      ("2", sync (write conv (set_csActive true)) ;;
            sendMessage jid "mohon tunggu sebentar." true);
      ("3", sendMessage jid "Percakapan diakhiri. Terima kasih." true ;;
            sync (conversations_delete jid));
      ("4", sync (write conv (set_state "dummyMenu")) ;;
            sendMessage jid (formatMenu "Dummy Menu" MENUS.dummyMenu) true);
      ("5", sync (write conv (set_state "produk")) ;;
            sendMessage jid (formatMenu "Produk" MENUS.produk) true) ]
    (sendMessage jid (invalid_choice +:+ formatMenu "Menu" MENUS.main) true) ;;
  sync (resetTimeout conv jid).

Definition handleInfoMenu (jid messageText : string) (conv : nat) : Co unit :=
  switch messageText
    [ ("1", sync (write conv (set_state "pdrb")) ;;
            sendMessage jid (formatMenu "Menu PDRB" MENUS.pdrb) true);
      ("2", sync (write conv (set_state "main")) ;;
            sendMessage jid (formatMenu "Menu" MENUS.main) true) ]
    (sendMessage jid (invalid_choice +:+ formatMenu "Menu Info" MENUS.info) true) ;;
  sync (resetTimeout conv jid).

Definition handlePdrbMenu (jid messageText : string) (conv : nat) : Co unit :=
  switch messageText
    [ ("1", sync (write conv (set_state "info")) ;;
            sendMessage jid (formatMenu "Menu Info" MENUS.info) true) ]
    (sendMessage jid (invalid_choice +:+ formatMenu "Menu PDRB" MENUS.pdrb) true) ;;
  sync (resetTimeout conv jid).

Definition handleDummyMenu (jid messageText : string) (conv : nat) : Co unit :=
  switch messageText
    [ ("1", sync (write conv (set_state "dummySubmenu1")) ;;
            sendMessage jid
              (formatMenu "Dummy Submenu 1" MENUS.dummySubmenu1) true);
      ("2", sync (write conv (set_state "main")) ;;
            sendMessage jid (formatMenu "Menu" MENUS.main) true) ]
    (sendMessage jid
       (invalid_choice +:+ formatMenu "Dummy Menu" MENUS.dummyMenu) true) ;;
  sync (resetTimeout conv jid).

Definition handleDummySubmenu1 (jid messageText : string) (conv : nat)
    : Co unit :=
  switch messageText
    [ ("1", sync (write conv (set_state "dummyMenu")) ;;
            sendMessage jid (formatMenu "Dummy Menu" MENUS.dummyMenu) true) ]
    (sendMessage jid
       (invalid_choice +:+ formatMenu "Dummy Submenu 1" MENUS.dummySubmenu1)
       true) ;;
  sync (resetTimeout conv jid).

Definition handleProdukMenu (jid messageText : string) (conv : nat) : Co unit :=
  switch messageText
    [ ("1", sync (write conv (set_state "produk1")) ;;
            sendMessage jid (formatMenu "Detail Produk 1" MENUS.produk1) true);
      ("2", sendMessage jid (formatMenu "Produk" MENUS.produk) true);
      ("3", sendMessage jid (formatMenu "Produk" MENUS.produk) true);
      ("4", sync (write conv (set_state "main")) ;;
            sendMessage jid (formatMenu "Menu" MENUS.main) true) ]
    (sendMessage jid (invalid_choice +:+ formatMenu "Produk" MENUS.produk) true) ;;
  sync (resetTimeout conv jid).

Definition handleProduk1Menu (jid messageText : string) (conv : nat)
    : Co unit :=
  switch messageText
    [ ("1", sync (write conv (set_state "produk")) ;;
            sendMessage jid (formatMenu "Produk" MENUS.produk) true) ]
    (sendMessage jid
       (invalid_choice +:+ formatMenu "Detail Produk 1" MENUS.produk1) true) ;;
  sync (resetTimeout conv jid).

(** What follows [await appendChatLog(...)] in [handleMessage]: the
    map is looked up only now, in the world the loop has by then. *)
Definition handleMessage_logged (jid messageText : string) : Co unit :=
  (* Initialize conversation if new user *)
  known ← sync (conversations_has jid);
  if negb known then
    l ← sync new_Conversation;
    sync (conversations_set jid l) ;;
    sendMessage jid (welcome +:+ formatMenu "Menu" MENUS.main) true ;;
    o ← sync (conversations_get jid);
    '(this, _) ← sync (deref o);
    sync (resetTimeout this jid)
  else
    o ← sync (conversations_get jid);
    '(conv, c) ← sync (deref o);
    (* Handle customer service active state *)
    if csActive c then
      if String.eqb (toLowerCase messageText) "terima kasih" then
        sync (write conv (set_csActive false)) ;;
        sync (write conv (set_state "main")) ;;
        sendMessage jid "Percakapan kembali diambil alih oleh bot." true ;;
        sync (resetTimeout conv jid)
      else
        sync (resetTimeout conv jid)
    else
      (* Menu navigation logic *)
      switch (state c)
        [ ("main", handleMainMenu jid messageText conv);
          ("info", handleInfoMenu jid messageText conv);
          ("pdrb", handlePdrbMenu jid messageText conv);
          ("dummyMenu", handleDummyMenu jid messageText conv);
          ("dummySubmenu1", handleDummySubmenu1 jid messageText conv);
          ("produk", handleProdukMenu jid messageText conv);
          ("produk1", handleProduk1Menu jid messageText conv) ]
        (sync (write conv (set_state "main")) ;;
         sendMessage jid (formatMenu "Menu" MENUS.main) true ;;
         sync (resetTimeout conv jid)).

Definition handleMessage (msg : WAMessage) : Co unit :=
  match message msg with
  | None => mret tt
  | Some m =>
      if fromMe (key msg) then mret tt
      else
        let jid := remoteJid (key msg) in
        let messageText := messageText_of m in
        (* Log user message *)
        timestamp ← sync getCurrentTimestamp;
        appendChatLog timestamp jid messageText "user" 3 ;;
        handleMessage_logged jid messageText
  end.

(** The ['messages.upsert'] listener registered by [startBot]. *)
Definition on_messages_upsert (m : Upsert) : Co unit :=
  match messages m with
  | None => mret tt
  | Some batch =>
      if negb (String.eqb (type m) "notify") then mret tt
      else
        match batch !! 0%nat with
        | Some msg => handleMessage msg
        | None => sync (throw TypeError)
        end
  end.

End Bot.
End Async.

(** ** The event loop with its suspended calls *)

(** A call suspended at an [await]: what it waits for, the time from
    which the event loop can resume it (a [Delay] when it has run out, a
    remote call as soon as the host answers, which can be at once), and
    the rest of its body. *)
Record Coroutine := mkCoroutine {
  awaited : Request;
  wake_at : Z;
  resume : World → Run unit
}.

(** The state of the event loop: the world, the suspended calls, and
    what the callbacks run so far have thrown.  Nothing catches it: the
    promise of a listener or of a timer callback is dropped, and what
    the host does with the unhandled rejection is not part of the
    model. *)
Record Loop := mkLoop {
  world : World;
  pool : list Coroutine;
  unhandled : list Thrown
}.

(** The least time a promise takes to settle. *)
Definition least_wait (request : Request) : Z :=
  match request with
  | Delay ms => ms
  | _ => 0
  end.

(** A callback has run as far as it gets: it is done, or joins the
    suspended calls. *)
Definition park (r : Run unit) (suspended : list Coroutine)
    (thrown : list Thrown) : Loop :=
  match r with
  | Finished (Normal _) w => mkLoop w suspended thrown
  | Finished (Throw e) w => mkLoop w suspended (thrown ++ [e])
  | Awaiting request w k =>
      let wake := now w + least_wait request in
      mkLoop w (suspended ++ [mkCoroutine request wake k]) thrown
  end.

(** What the event loop does next: it delivers an inbound event to the
    ['messages.upsert'] listener, runs the callback of an inactivity
    timer, resumes the i-th suspended call, or idles for a while.  The
    code between two [await]s runs in no time. *)
Inductive Label :=
  | Arrive (m : Upsert)
  | Expire (id : nat)
  | Settle (i : nat)
  | Tick (ms : Z).

(** The loop cannot idle past the moment a timer is due, be it an
    inactivity timer or the [Delay] a call sleeps on: the timer runs
    first.  Timers that are due at the same moment run in any order,
    and a remote call can take any time to settle. *)
Definition may_idle (ms : Z) (L : Loop) : bool :=
  let t := now (world L) in
  bool_decide (0 ≤ ms) &&
  bool_decide (map_Forall (λ _ tm, ms = 0 ∨ t + ms ≤ timer_due tm)
                 (timers (world L))) &&
  forallb (λ co, match awaited co with
                 | Delay _ => bool_decide (ms = 0 ∨ t + ms ≤ wake_at co)
                 | _ => true
                 end) (pool L).

Section EventLoop.
Context `{Host}.

(** One step of the loop, where it is possible: an event can arrive at
    any moment; a timer expires once, when it is pending and due; a
    call is resumed when what it awaits can have settled. *)
Definition step (l : Label) (L : Loop) : option Loop :=
  let w := world L in
  match l with
  | Arrive m =>
      Some (park (Async.on_messages_upsert m w) (pool L) (unhandled L))
  | Expire id =>
      match timers w !! id with
      | Some t =>
          if bool_decide (timer_due t ≤ now w) then
            Some (park (Async.resetTimeout_callback (timer_jid t)
                          (set_timers (delete id) w))
                    (pool L) (unhandled L))
          else None
      | None => None
      end
  | Settle i =>
      match pool L !! i with
      | Some co =>
          if bool_decide (wake_at co ≤ now w) then
            Some (park (resume co w) (delete i (pool L)) (unhandled L))
          else None
      | None => None
      end
  | Tick ms =>
      if may_idle ms L then
        Some (mkLoop (set_now (now w + ms) w) (pool L) (unhandled L))
      else None
  end.

(** The loop follows a schedule, as far as each step is possible. *)
Fixpoint run (schedule : list Label) (L : Loop) : option Loop :=
  match schedule with
  | [] => Some L
  | l :: schedule' => L' ← step l L; run schedule' L'
  end.

End EventLoop.

(** ** Observations *)

(** The [Conversation] the map holds for [jid], if any. *)
Definition conversation_of (w : World) (jid : string) : option Conversation :=
  l ← conversations w !! jid; heap w !! l.

Definition sent (e : Effect) : option (string * string) :=
  match e with
  | SockSend jid text _ => Some (jid, text)
  | _ => None
  end.

Definition logged (e : Effect) : option Row :=
  match e with
  | AppendChatLog values => Some values
  | _ => None
  end.

Definition attempted (e : Effect) : option bool :=
  match e with
  | RemoteAppend _ ok => Some ok
  | _ => None
  end.

(** The messages handed to the transport, the rows handed to
    [appendChatLog] and the outcomes of the remote appends, each in
    order. *)
Definition outbound (t : list Effect) : list (string * string) := omap sent t.
Definition chat_logs (t : list Effect) : list Row := omap logged t.
Definition attempts (t : list Effect) : list bool := omap attempted t.

(** The timers pending for a jid. *)
Definition timers_of (w : World) (jid : string) : gmap nat Timer :=
  filter (λ kv, timer_jid kv.2 = jid) (timers w).


(** Two worlds that differ at most in the clock, the count of remote
    appends and the trace. *)
Definition same_state (w w' : World) : Prop :=
  conversations w' = conversations w ∧ heap w' = heap w ∧
  timers w' = timers w ∧ next_timer w' = next_timer w ∧
  sheets w' = sheets w ∧ sends w' = sends w.

(** A plain text message [body] from [jid]. *)
Definition text_message (jid body : string) : WAMessage :=
  mkWAMessage (mkKey jid false) (Some (mkMessage (Some body) None)).

(** [clearTimeout] of the handle a conversation holds, if it holds one. *)
Definition cancel (o : option nat) (ts : gmap nat Timer) : gmap nat Timer :=
  match o with
  | Some t => delete t ts
  | None => ts
  end.

(** What every path through a handler does to the world [w] it starts
    in: the conversation object [l], whose fields the handler left as
    [c'], gets a fresh timer handle; its previous timer is cancelled and
    a new one armed for [INACTIVITY_TIMEOUT]; the texts [replies] are
    handed to the transport with the bot signature appended; nothing is
    logged to the spreadsheet. *)
Definition handled (jid : string) (l : nat) (c' : Conversation)
    (replies : list string) (w w' : World) : Prop :=
  heap w' = <[l := set_timeout (Some (next_timer w)) c']> (heap w) ∧
  timers w' =
    <[next_timer w := mkTimer jid (now w + INACTIVITY_TIMEOUT)]>
      (cancel (timeout c') (timers w)) ∧
  next_timer w' = S (next_timer w) ∧
  now w' = now w ∧ sheets w' = sheets w ∧
  ∃ Δ, trace w' = trace w ++ Δ ∧
       outbound Δ = (λ r, (jid, r +:+ bot_signature)) <$> replies ∧
       chat_logs Δ = [] ∧ attempts Δ = [].

(** The values [state] takes. *)
Definition states : list string :=
  ["main"; "info"; "pdrb"; "dummyMenu"; "dummySubmenu1"; "produk"; "produk1"].

(** The invariant of the store: every entry of the map refers to an
    object, and the state of every object is one of the seven nodes. *)
Definition store_ok (w : World) : Prop :=
  (∀ jid l, conversations w !! jid = Some l → is_Some (heap w !! l)) ∧
  (∀ l c, heap w !! l = Some c → state c ∈ states).

(** *** A concrete host *)

(** Lower-casing of the letters A-Z; [toLowerCase] agrees with it on
    7-bit text. *)
Definition lower_ascii (c : ascii) : ascii :=
  let n := nat_of_ascii c in
  if ((65 <=? n)%nat && (n <=? 90)%nat) then ascii_of_nat (n + 32) else c.

Fixpoint lower_string (s : string) : string :=
  match s with
  | EmptyString => EmptyString
  | String c s' => String (lower_ascii c) (lower_string s')
  end.

(** A host whose transport always resolves and whose spreadsheet rejects
    the calls listed in [rejected]. *)
Definition host_rejecting (rejected : list nat) : Host :=
  mkHost lower_string (λ n, negb (bool_decide (n ∈ rejected))) (λ _, true).

(** A network that never fails. *)
Definition reliable_host : Host := host_rejecting [].

(** The world a computation leaves. *)
Definition after {A} (m : JS A) (w : World) : World := (m w).2.

(** A computation that hands nothing to [appendChatLog]. *)
Definition quiet {A} (m : JS A) : Prop :=
  ∀ w, ∃ Δ, trace (after m w) = trace w ++ Δ ∧ chat_logs Δ = [].

(** Worlds on a reliable network: jid "a" has said "hi"; has then been
    idle for the whole timeout; or has chosen 3 to end the conversation. *)
Definition world_greeted : World :=
  after (handleMessage (H := reliable_host) (text_message "a" "hi"))
    initial_world.

Definition world_idle : World :=
  set_now (now world_greeted + INACTIVITY_TIMEOUT) world_greeted.

Definition world_ended : World :=
  after (handleMessage (H := reliable_host) (text_message "a" "3"))
    world_greeted.

(** A conversation handed over to a human agent. *)
Definition world_handoff : World :=
  after (handleMessage (H := reliable_host) (text_message "a" "2"))
    world_greeted.

(** ** Start-up *)

Definition set_sheets (client : bool) (w : World) : World :=
  mkWorld (conversations w) (heap w) (timers w) (next_timer w)
          client (now w) (appends w) (sends w) (trace w).

(** The world when the module is loaded: [let sheets;] is still
    undefined and nothing has happened. *)
Definition loaded_world : World :=
  mkWorld ∅ ∅ ∅ 0 false 0 0 0 [].

(** What the environment decides at start-up: whether
    [fs.existsSync(keyFile)] holds, and whether the rest of the [try]
    block of [authorizeGoogle] (loading the key, building the JWT client,
    [authClient.authorize()], building the spreadsheet client) completes
    without throwing. *)
Class Startup := mkStartup {
  key_file_exists : bool;
  authorization_completes : bool
}.

(** How [authorizeGoogle] ends: it returns, or [process.exit] ends the
    process with a status. *)
Inductive Started :=
  | Returned
  | Exited (status : Z).

(** [authorizeGoogle].  [process.exit(1)] does not return, so the
    [catch] clause is reached only from a throw of the [try] block; the
    assignment to [sheets] is the last statement of the block. *)
Definition authorizeGoogle `{Startup} (w : World) : Started * World :=
  if negb key_file_exists then
    (Exited 1,
     emit (LoggerError
             "Service account key file not found. Please provide service-account-key.json")
       w)
  else if negb authorization_completes then
    (Exited 1,
     emit (LoggerError
             "Failed to authorize Google API client with service account:")
       w)
  else (Returned, set_sheets true w).

(** ** Further observations *)

(** The listener invoked on a sequence of inbound messages, one turn
    after the other. *)
Fixpoint handleMessages `{Host} (msgs : list WAMessage) : JS unit :=
  match msgs with
  | [] => mret tt
  | msg :: msgs' => handleMessage msg ;; handleMessages msgs'
  end.

(** Timer handles are issued in increasing order: the pending timers
    and the handles the conversation objects hold are all below
    [next_timer]. *)
Definition timers_ok (w : World) : Prop :=
  (∀ id t, timers w !! id = Some t → (id < next_timer w)%nat) ∧
  (∀ l c id, heap w !! l = Some c → timeout c = Some id →
             (id < next_timer w)%nat).

(** A string that does not begin with white space. *)
Definition starts_clean (s : string) : bool :=
  match s with
  | String c _ => negb (isWhiteSpace c)
  | EmptyString => true
  end.

(** A string that is not empty and does not end with white space. *)
Definition ends_clean (s : string) : bool :=
  match String.rev s with
  | String c _ => negb (isWhiteSpace c)
  | EmptyString => false
  end.

(** The numbered lines of a menu, each preceded by a line feed; [index]
    counts from 0 and the numbers shown from 1. *)
Fixpoint numbered (index : nat) (items : list string) : string :=
  match items with
  | [] => EmptyString
  | item :: items' =>
      LF +:+ pretty (index + 1)%nat +:+ ". " +:+ item
         +:+ numbered (S index) items'
  end.

(** The longest the retry loop can still wait from [attempt] on:
    [1000 * (attempt + ... + (retries - 1))] milliseconds. *)
Definition backoff_left (attempt retries : nat) : Z :=
  500 * (Z.of_nat retries * (Z.of_nat retries - 1)
         - Z.of_nat attempt * (Z.of_nat attempt - 1)).


(** The world after jid "a" has sent [texts], one after the other, on a
    reliable network. *)
Definition world_after (texts : list string) : World :=
  after (handleMessages (H := reliable_host) (text_message "a" <$> texts))
    initial_world.

(** A world whose only conversation holds a state outside the table. *)
Definition world_lost : World :=
  mkWorld {[ "a" := 0%nat ]} {[ 0%nat := mkConversation "lost" false None ]}
          ∅ 0 true 0 0 0 [].

(** ** Observations of the event loop *)

(** A notify event with the given batch of messages. *)
Definition notify (batch : list WAMessage) : Upsert :=
  mkUpsert (Some batch) "notify".

(** An idle loop: nothing is suspended and nothing was thrown. *)
Definition idle (w : World) : Loop := mkLoop w [] [].

(** The schedule under which the call suspended last, at index [i] of
    the suspended calls, runs to its end with nothing else in between:
    each of its [await]s takes some time, then the call is resumed. *)
Definition alone (i : nat) (waits : list Z) : list Label :=
  waits ≫= λ d, [Tick d; Settle i].


(** The loop a schedule leads to; the loop itself where the schedule is
    not possible. *)
Definition loop_after `{Host} (schedule : list Label) (L : Loop) : Loop :=
  default L (run schedule L).

(** What a completion leaves for the host to report. *)
Definition thrown {A} (c : Completion A) : list Thrown :=
  match c with
  | Normal _ => []
  | Throw e => [e]
  end.

(** *** The texts the user receives *)

(** Lines joined by line feeds. *)
Definition lines (l : list string) : string := String.concat LF l.

(** The seven menus as they reach the user, without the signature. *)
Module Rendered.
Definition main : string :=
  lines ["Menu:"; "1. Info"; "2. Chat dengan CS"; "3. Akhiri percakapan";
         "4. Dummy Menu"; "5. Produk"].
Definition info : string :=
  lines ["Menu Info:"; "1. PDRB"; "2. Kembali ke menu sebelumnya"].
Definition pdrb : string :=
  lines ["Menu PDRB:"; "1. Nilai PDRB sebesar 1 juta.";
         "2. Kembali ke menu sebelumnya"].
Definition dummyMenu : string :=
  lines ["Dummy Menu:"; "1. Dummy Submenu 1"; "2. Kembali ke menu sebelumnya"].
Definition dummySubmenu1 : string :=
  lines ["Dummy Submenu 1:"; "1. Kembali ke menu sebelumnya"].
Definition produk : string :=
  lines ["Produk:"; "1. Produk 1"; "2. Produk 2"; "3. Produk 3";
         "4. Kembali ke menu sebelumnya"].
Definition produk1 : string :=
  lines ["Detail Produk 1:"; "1. Detail Produk 1";
         "2. Kembali ke menu sebelumnya"].
End Rendered.

(** The other texts of the bot. *)
Definition invalid (menu : string) : string :=
  lines ["Pilihan tidak valid. Silakan pilih menu:"; menu].



(** A text as it is handed to the transport when it is sent for the
    bot: an empty line and the signature follow it. *)
Definition signed (text : string) : string :=
  lines [text; EmptyString; "chat digenerate oleh bot"].


(** A 7-bit character other than white space.  On strings that begin
    and end with such a character, [trim] above and
    [String.prototype.trim] agree whatever the strings hold in
    between. *)
Definition plain (c : ascii) : bool :=
  negb (isWhiteSpace c) && (nat_of_ascii c <? 128)%nat.

Definition starts_plain (s : string) : bool :=
  match s with
  | String c _ => plain c
  | EmptyString => true
  end.

Definition ends_plain (s : string) : bool :=
  match String.rev s with
  | String c _ => plain c
  | EmptyString => false
  end.

(** *** A call run by itself *)



(** A call resumed after each [await] with nothing else in between,
    the i-th [await] taking the i-th of [waits]: the completion, the
    world it leaves and the waits not used.  A wait must be long
    enough for the [Delay] it is spent on. *)
Definition admissible (d : Z) (request : Request) : bool :=
  bool_decide (0 ≤ d) && bool_decide (least_wait request ≤ d).

Fixpoint drive {A} (r : Run A) (waits : list Z)
    : option (Completion A * World * list Z) :=
  match r with
  | Finished c w => Some (c, w, waits)
  | Awaiting request w k =>
      match waits with
      | [] => None
      | d :: waits' =>
          if admissible d request then drive (k (set_now (now w + d) w)) waits'
          else None
      end
  end.

(** The timers [ts] of a call whose [await]s took time, next to the
    timers [ts0] of its uninterrupted run: the same handles for the
    same jids; a timer older than the call (its handle is below
    [first_new]) is the same in both, and one armed by the call is due
    later by at most [gap], the time by which the clock is ahead. *)
Definition later (first_new : nat) (gap : Z) (ts0 ts : gmap nat Timer)
    : Prop :=
  ∀ id, match ts0 !! id, ts !! id with
        | Some t0, Some t =>
            ((id < first_new)%nat → t = t0) ∧
            timer_jid t = timer_jid t0 ∧
            timer_due t0 ≤ timer_due t ≤ timer_due t0 + gap
        | None, None => True
        | _, _ => False
        end.

(** The world [w] of such a call next to the world [w0] of its
    uninterrupted run: they differ in the clock and in the due times of
    the timers armed since the call began. *)
Definition drift (first_new : nat) (w0 w : World) : Prop :=
  conversations w = conversations w0 ∧ heap w = heap w0 ∧
  later first_new (now w - now w0) (timers w0) (timers w) ∧
  next_timer w = next_timer w0 ∧
  sheets w = sheets w0 ∧ now w0 ≤ now w ∧
  appends w = appends w0 ∧ sends w = sends w0 ∧ trace w = trace w0 ∧
  (first_new ≤ next_timer w0)%nat.

(** However long the [await]s of the run [r] take, it completes as the
    uninterrupted run [p0] does, in a world that has only drifted. *)
Definition tracks {A} (first_new : nat) (r : Run A)
    (p0 : Completion A * World) : Prop :=
  ∀ ds c w' ds',
    drive r ds = Some (c, w', ds') → c = p0.1 ∧ drift first_new p0.2 w'.

Definition refines {A} (first_new : nat) (m : Co A) (m0 : JS A) : Prop :=
  ∀ w0 w, drift first_new w0 w → tracks first_new (m w) (m0 w0).

(** A stretch of code without [await] that reads neither the clock nor
    the due time of a timer. *)
Definition blind {A} (first_new : nat) (m0 : JS A) : Prop :=
  ∀ w0 w, drift first_new w0 w →
          (m0 w).1 = (m0 w0).1 ∧ drift first_new (m0 w0).2 (m0 w).2.

(** *** Timers that fall due while a message is handled *)

(** Jid "a" was greeted, has asked for a human agent, or has ended the
    conversation, at time 0, and 119.5 s have passed since: the
    inactivity timer armed then is due in half a second. *)
Definition world_greeted_late : World := set_now 119500 world_greeted.
Definition world_handoff_late : World := set_now 119500 world_handoff.
Definition world_ended_late : World := set_now 119500 world_ended.



(** * Properties of the uninterrupted functions *)

Section Properties.
Context `{Host}.

(** ** Running computations *)

Lemma bind_run {A B} (m : JS A) (f : A → JS B) w a w1 :
  m w = (Normal a, w1) → (m ≫= f) w = f a w1.
Proof. intros E. unfold mbind, JS_bind. by rewrite E. Qed.

Lemma gets_run {A B} (g : World → A) (f : A → JS B) w :
  (gets g ≫= f) w = f (g w) w.
Proof. reflexivity. Qed.

Lemma modify_run {B} (g : World → World) (f : unit → JS B) w :
  (modify g ≫= f) w = f tt (g w).
Proof. reflexivity. Qed.

Lemma same_state_refl w : same_state w w.
Proof. by repeat split. Qed.

Lemma same_state_trans w1 w2 w3 :
  same_state w1 w2 → same_state w2 w3 → same_state w1 w3.
Proof.
  unfold same_state. intros (?&?&?&?&?&?) (?&?&?&?&?&?).
  repeat split; congruence.
Qed.

Lemma outbound_app t1 t2 : outbound (t1 ++ t2) = outbound t1 ++ outbound t2.
Proof. apply omap_app. Qed.

Lemma chat_logs_app t1 t2 : chat_logs (t1 ++ t2) = chat_logs t1 ++ chat_logs t2.
Proof. apply omap_app. Qed.

Lemma attempts_app t1 t2 : attempts (t1 ++ t2) = attempts t1 ++ attempts t2.
Proof. apply omap_app. Qed.

(** ** The chat-log sink *)

(** The retry loop completes normally whatever the remote answers, makes
    at most [todo] attempts, all failed but possibly the last, and
    touches neither the conversations nor the transport. *)
Lemma appendChatLog_for_spec todo attempt retries values w :
  ∃ w' Δ,
    appendChatLog_for todo attempt retries values w = (Normal tt, w') ∧
    same_state w w' ∧ now w <= now w' ∧
    trace w' = trace w ++ Δ ∧
    outbound Δ = [] ∧ chat_logs Δ = [] ∧
    (attempts Δ = replicate todo false ∨
     ∃ k, (k < todo)%nat ∧ attempts Δ = replicate k false ++ [true]).
Proof.
  revert attempt w. induction todo as [|todo IH]; intros attempt w.
  - exists w, []. rewrite app_nil_r. repeat split; try done; try lia. by left.
  - cbn [appendChatLog_for].
    unfold try_catch, sheets_values_append, logger_error, sleep, modify,
      mbind, JS_bind, mret, JS_ret.
    destruct (append_resolves (appends w)) eqn:Hok.
    + eexists _, [_]. repeat split; try done; cbn; try lia.
      right. exists 0%nat. split; [lia | done].
    + destruct (attempt =? retries)%nat;
        match goal with |- context [appendChatLog_for todo _ _ _ ?w1] =>
          destruct (IH (S attempt) w1)
            as (w' & Δ & -> & Hs & Hnow & Ht & Hout & Hlog & Hatt)
        end; cbn in Hs, Hnow, Ht.
      * eexists _, (_ :: _ :: _ :: Δ). repeat split; try apply Hs; try lia.
        -- rewrite Ht, <- !app_assoc. reflexivity.
        -- done.
        -- done.
        -- unfold attempts in *. cbn.
           destruct Hatt as [-> | (k & Hk & ->)]; [by left | right].
           exists (S k). split; [lia | done].
      * eexists _, (_ :: _ :: _ :: Δ). repeat split; try apply Hs; try lia.
        -- rewrite Ht, <- !app_assoc. reflexivity.
        -- done.
        -- done.
        -- unfold attempts in *. cbn.
           destruct Hatt as [-> | (k & Hk & ->)]; [by left | right].
           exists (S k). split; [lia | done].
Qed.


Lemma appendChatLog_spec timestamp from message senderType retries w :
  ∃ w' Δ,
    appendChatLog timestamp from message senderType retries w
      = (Normal tt, w') ∧
    same_state w w' ∧ now w <= now w' ∧
    trace w' =
      trace w ++ AppendChatLog (mkRow timestamp from message senderType) :: Δ ∧
    outbound Δ = [] ∧ chat_logs Δ = [] ∧
    (length (attempts Δ) <= retries)%nat ∧
    (sheets w = false → Δ = []).
Proof.
  unfold appendChatLog, modify, gets, mbind, JS_bind, mret, JS_ret. cbn.
  destruct (sheets w) eqn:Hsheets; cbn.
  - match goal with |- context [appendChatLog_for _ _ _ ?v ?w1] =>
      destruct (appendChatLog_for_spec retries 1 retries v w1)
        as (w' & Δ & -> & Hs & Hnow & Ht & Hout & Hlog & Hatt)
    end.
    cbn in Hs, Hnow, Ht. exists w', Δ. repeat split; try apply Hs; try done.
    + by rewrite Ht, <- app_assoc.
    + destruct Hatt as [-> | (k & Hk & ->)].
      * by rewrite length_replicate.
      * rewrite length_app, length_replicate. cbn. lia.
  - eexists _, []. repeat split; try done. cbn. lia.
Qed.

(** [handleMessage] on a message that is not skipped: the text is logged
    and the rest runs in the world the sink leaves. *)
Lemma handleMessage_processed msg m w :
  message msg = Some m → fromMe (key msg) = false →
  let jid := remoteJid (key msg) in
  let messageText := messageText_of m in
  ∃ w1 Δ,
    same_state w w1 ∧ now w <= now w1 ∧
    trace w1 =
      trace w ++ AppendChatLog (mkRow (now w) jid messageText "user") :: Δ ∧
    outbound Δ = [] ∧ chat_logs Δ = [] ∧
    handleMessage msg w =
      match conversations w !! jid with
      | None => handleMessage_new jid w1
      | Some l =>
          match heap w !! l with
          | Some c => handleMessage_known jid messageText l c w1
          | None => (Throw TypeError, w1)
          end
      end.
Proof.
  intros Hm Hfrom jid messageText.
  destruct (appendChatLog_spec (now w) jid messageText "user" 3 w)
    as (w1 & Δ & Hrun & Hs & Hnow & Ht & Hout & Hlog & _ & _).
  exists w1, Δ. repeat split; try apply Hs; try done.
  unfold handleMessage. rewrite Hm, Hfrom. fold jid. fold messageText.
  unfold getCurrentTimestamp. rewrite gets_run. cbv beta.
  rewrite (bind_run _ _ _ _ _ Hrun). cbv beta.
  unfold conversations_has. rewrite gets_run. cbv beta.
  destruct Hs as (Hc & Hh & _). rewrite Hc.
  destruct (conversations w !! jid) as [l|] eqn:Hl.
  - rewrite bool_decide_true by eauto. cbn [negb].
    unfold conversations_get. rewrite gets_run. cbv beta. rewrite Hc, Hl.
    unfold deref at 1. unfold mbind at 1, JS_bind at 1. rewrite Hh.
    destruct (heap w !! l); reflexivity.
  - rewrite bool_decide_false by (intros [? ?]; done). reflexivity.
Qed.

(** *** Sending and re-arming *)

Lemma sendMessage_run jid message isBot w :
  sendMessage jid message isBot w =
    (Normal tt,
     (if send_resolves (sends w) then id
      else emit (LoggerError "Failed to send message:"))
       (emit (SockSend jid
                (if isBot then message +:+ bot_signature else message)
                (send_resolves (sends w)))
          (set_sends (S (sends w)) w))).
Proof.
  unfold sendMessage, try_catch, sock_sendMessage, logger_error, modify.
  destruct (send_resolves (sends w)); reflexivity.
Qed.

Lemma read_run l c w : heap w !! l = Some c → read l w = (Normal c, w).
Proof.
  intros Hl. unfold read, deref, mbind, JS_bind. by rewrite Hl.
Qed.

Lemma write_run l f c w :
  heap w !! l = Some c →
  write l f w = (Normal tt, set_heap <[l := f c]> w).
Proof.
  intros Hl. unfold write. by rewrite (bind_run _ _ _ _ _ (read_run _ _ _ Hl)).
Qed.

Lemma resetTimeout_run l jid c w :
  heap w !! l = Some c →
  ∃ w', resetTimeout l jid w = (Normal tt, w') ∧
        conversations w' = conversations w ∧ sends w' = sends w ∧
        handled jid l c [] w w'.
Proof.
  intros Hl. unfold resetTimeout.
  rewrite (bind_run _ _ _ _ _ (read_run _ _ _ Hl)).
  unfold clearTimeout, setTimeout, modify, mbind at 1 2, JS_bind at 1 2.
  destruct (timeout c) as [t|] eqn:Ht; cbn;
    (erewrite write_run by (cbn; exact Hl));
    (eexists; split; [reflexivity|]); cbn;
    unfold handled; cbn; rewrite Ht; cbn;
    (repeat split; try done); exists []; by rewrite app_nil_r.
Qed.

(** [handled] seen from a world that precedes a send, a field write or
    a change of the map. *)
Lemma handled_after_send jid reply l c' w w' :
  handled jid l c' [] (sendMessage jid reply true w).2 w' →
  handled jid l c' [reply] w w'.
Proof.
  rewrite sendMessage_run. unfold handled.
  destruct (send_resolves (sends w)); cbn;
    intros (? & ? & ? & ? & ? & Δ & Ht & Hout & Hlog & Hatt);
    (repeat split; try done);
    rewrite <- ?app_assoc in Ht; (eexists; split; [exact Ht|]);
    unfold outbound, chat_logs, attempts in *; cbn;
    rewrite ?omap_app; cbn; by rewrite ?Hout, ?Hlog, ?Hatt.
Qed.

Lemma handled_after_write jid replies l c1 c' w w' :
  handled jid l c' replies (set_heap <[l := c1]> w) w' →
  handled jid l c' replies w w'.
Proof.
  unfold handled. cbn. rewrite insert_insert_eq. done.
Qed.

Lemma handled_after_map f jid replies l c' w w' :
  handled jid l c' replies (set_conversations f w) w' →
  handled jid l c' replies w w'.
Proof. done. Qed.

Lemma heap_after_send jid reply w :
  heap (sendMessage jid reply true w).2 = heap w.
Proof. rewrite sendMessage_run. by destruct (send_resolves (sends w)). Qed.

Lemma conversations_after_send jid reply w :
  conversations (sendMessage jid reply true w).2 = conversations w.
Proof. rewrite sendMessage_run. by destruct (send_resolves (sends w)). Qed.

Lemma sendMessage_normal jid reply isBot w :
  sendMessage jid reply isBot w = (Normal tt, (sendMessage jid reply isBot w).2).
Proof. by rewrite sendMessage_run. Qed.

(** The shapes the bodies of the handlers take. *)

Lemma navigate_run f jid reply l c w :
  heap w !! l = Some c →
  ∃ w', ((write l f ;; sendMessage jid reply true) ;; resetTimeout l jid) w
          = (Normal tt, w') ∧
        conversations w' = conversations w ∧
        handled jid l (f c) [reply] w w'.
Proof.
  intros Hl.
  set (w1 := set_heap <[l := f c]> w).
  set (w2 := (sendMessage jid reply true w1).2).
  assert (Hl2 : heap w2 !! l = Some (f c)).
  { unfold w2. rewrite heap_after_send. cbn. apply lookup_insert_eq. }
  destruct (resetTimeout_run l jid _ w2 Hl2) as (w' & Hrun & Hc & _ & Hh).
  exists w'. split; [|split].
  - erewrite bind_run; [exact Hrun|].
    erewrite bind_run by (by apply write_run). apply sendMessage_normal.
  - rewrite Hc. unfold w2. by rewrite conversations_after_send.
  - by apply handled_after_write with (c1 := f c), handled_after_send.
Qed.

Lemma reprompt_run jid reply l c w :
  heap w !! l = Some c →
  ∃ w', (sendMessage jid reply true ;; resetTimeout l jid) w = (Normal tt, w') ∧
        conversations w' = conversations w ∧
        handled jid l c [reply] w w'.
Proof.
  intros Hl.
  set (w2 := (sendMessage jid reply true w).2).
  assert (Hl2 : heap w2 !! l = Some c).
  { unfold w2. by rewrite heap_after_send. }
  destruct (resetTimeout_run l jid _ w2 Hl2) as (w' & Hrun & Hc & _ & Hh).
  exists w'. split; [|split].
  - erewrite bind_run; [exact Hrun|]. apply sendMessage_normal.
  - rewrite Hc. unfold w2. by rewrite conversations_after_send.
  - by apply handled_after_send.
Qed.

Lemma terminate_run jid reply l c w :
  heap w !! l = Some c →
  ∃ w', ((sendMessage jid reply true ;; conversations_delete jid) ;;
         resetTimeout l jid) w = (Normal tt, w') ∧
        conversations w' = delete jid (conversations w) ∧
        handled jid l c [reply] w w'.
Proof.
  intros Hl.
  set (w2 := (sendMessage jid reply true w).2).
  set (w3 := set_conversations (delete jid) w2).
  assert (Hl3 : heap w3 !! l = Some c).
  { change (heap w2 !! l = Some c). unfold w2. by rewrite heap_after_send. }
  destruct (resetTimeout_run l jid _ w3 Hl3) as (w' & Hrun & Hc & _ & Hh).
  exists w'. split; [|split].
  - erewrite bind_run; [exact Hrun|].
    erewrite bind_run by apply sendMessage_normal. reflexivity.
  - rewrite Hc. change (conversations w3) with (delete jid (conversations w2)).
    unfold w2. by rewrite conversations_after_send.
  - by apply handled_after_send, (handled_after_map (delete jid)).
Qed.

Lemma resume_run f g jid reply l c w :
  heap w !! l = Some c →
  ∃ w', (write l f ;; write l g ;; sendMessage jid reply true ;;
         resetTimeout l jid) w = (Normal tt, w') ∧
        conversations w' = conversations w ∧
        handled jid l (g (f c)) [reply] w w'.
Proof.
  intros Hl.
  set (w1 := set_heap <[l := f c]> w).
  set (w2 := set_heap <[l := g (f c)]> w1).
  set (w3 := (sendMessage jid reply true w2).2).
  assert (Hl1 : heap w1 !! l = Some (f c)) by apply lookup_insert_eq.
  assert (Hl3 : heap w3 !! l = Some (g (f c))).
  { unfold w3. rewrite heap_after_send. apply lookup_insert_eq. }
  destruct (resetTimeout_run l jid _ w3 Hl3) as (w' & Hrun & Hc & _ & Hh).
  exists w'. split; [|split].
  - erewrite bind_run by (by apply write_run).
    erewrite bind_run by (by apply write_run).
    erewrite bind_run by apply sendMessage_normal. exact Hrun.
  - rewrite Hc. unfold w3. by rewrite conversations_after_send.
  - apply handled_after_write with (c1 := f c).
    apply handled_after_write with (c1 := g (f c)).
    by apply handled_after_send.
Qed.

(** *** [switch] *)

Lemma switch_hit {A} x (body : A) cases default :
  switch x ((x, body) :: cases) default = body.
Proof. cbn. by rewrite String.eqb_refl. Qed.

Lemma switch_skip {A} x k (body : A) cases default :
  x ≠ k → switch x ((k, body) :: cases) default = switch x cases default.
Proof. intros Hne. cbn. by apply String.eqb_neq in Hne as ->. Qed.

Lemma switch_default {A} x (cases : list (string * A)) default :
  x ∉ cases.*1 → switch x cases default = default.
Proof.
  induction cases as [|[k body] cases IH]; [done|].
  cbn [fmap list_fmap fst]. intros Hx%not_elem_of_cons.
  destruct Hx as [Hne Hx]. rewrite switch_skip by done. by apply IH.
Qed.

(** Resolves the [switch]es of the goal whose scrutinee is known to be,
    or to differ from, each label. *)
Ltac switch_go :=
  cbv zeta;
  repeat first [rewrite switch_hit | rewrite switch_skip by done];
  cbn [switch].

(** *** What a handled message leaves behind *)

(** The observations of a message that was logged in [w], leaving [w1],
    and then handled from [w1]. *)
Lemma logged_then_handled jid l c' replies row Δ w w1 w' :
  same_state w w1 →
  trace w1 = trace w ++ AppendChatLog row :: Δ →
  outbound Δ = [] → chat_logs Δ = [] →
  handled jid l c' replies w1 w' →
  heap w' !! l = Some (set_timeout (Some (next_timer w)) c') ∧
  timers w' =
    <[next_timer w := mkTimer jid (now w' + INACTIVITY_TIMEOUT)]>
      (cancel (timeout c') (timers w)) ∧
  outbound (trace w') =
    outbound (trace w) ++ ((λ r, (jid, r +:+ bot_signature)) <$> replies) ∧
  chat_logs (trace w') = chat_logs (trace w) ++ [row].
Proof.
  intros (Hc & Hh & Hti & Hn & _) Ht Hout Hlog
    (Hh' & Hti' & _ & Hnow' & _ & Δ' & Ht' & Hout' & Hlog' & _).
  rewrite Hn in Hh', Hti'. rewrite Hti in Hti'. rewrite <- Hnow' in Hti'.
  repeat split.
  - rewrite Hh'. apply lookup_insert_eq.
  - done.
  - rewrite Ht', Ht. change (?a :: Δ) with ([a] ++ Δ).
    rewrite !outbound_app, Hout, Hout'. cbn. by rewrite app_nil_r.
  - rewrite Ht', Ht. change (?a :: Δ) with ([a] ++ Δ).
    rewrite !chat_logs_app, Hlog, Hlog'. cbn. by rewrite !app_nil_r.
Qed.

Lemma conversation_of_Some w jid c :
  conversation_of w jid = Some c ↔
  ∃ l, conversations w !! jid = Some l ∧ heap w !! l = Some c.
Proof.
  unfold conversation_of. destruct (conversations w !! jid) as [l|]; cbn.
  - split; [by exists l | by intros (? & [= <-] & ?)].
  - split; [done | by intros (? & ? & ?)].
Qed.

(** ** The menu state machine *)




(** The first message of a new user. *)
Lemma handleMessage_new_run jid w :
  let l := fresh (dom (heap w)) in
  ∃ w', handleMessage_new jid w = (Normal tt, w') ∧
        heap w !! l = None ∧
        conversations w' = <[jid := l]> (conversations w) ∧
        handled jid l Conversation_new
          [welcome +:+ formatMenu "Menu" MENUS.main] w w'.
Proof.
  intros l. unfold handleMessage_new.
  set (reply := welcome +:+ formatMenu "Menu" MENUS.main).
  set (w1 := set_heap <[l := Conversation_new]> w).
  set (w2 := set_conversations <[jid := l]> w1).
  set (w3 := (sendMessage jid reply true w2).2).
  assert (Hl3 : heap w3 !! l = Some Conversation_new).
  { unfold w3. rewrite heap_after_send. apply lookup_insert_eq. }
  assert (Hj3 : conversations w3 !! jid = Some l).
  { unfold w3. rewrite conversations_after_send. apply lookup_insert_eq. }
  destruct (resetTimeout_run l jid _ w3 Hl3) as (w' & Hrun & Hc & _ & Hh).
  exists w'. split; [|split; [|split]].
  - erewrite (bind_run new_Conversation) by reflexivity.
    fold l. fold w1. unfold conversations_set. rewrite modify_run.
    fold w2. erewrite bind_run by apply sendMessage_normal. fold w3.
    unfold conversations_get. rewrite gets_run, Hj3.
    unfold deref. unfold mbind at 1, JS_bind at 1. rewrite Hl3. exact Hrun.
  - apply not_elem_of_dom, is_fresh.
  - rewrite Hc. unfold w3. by rewrite conversations_after_send.
  - apply handled_after_write with (c1 := Conversation_new).
    apply (handled_after_map <[jid := l]>). by apply handled_after_send.
Qed.

(** ** Human handoff *)


(** ** First contact *)

(** ** The chat-log sink, as [handleMessage] calls it *)

(** C6. [appendChatLog] with the default of 3 retries never throws.  With
    the client initialised it calls the remote append until it resolves,
    at most 3 times; after the first failure it waits 1000 ms, after the
    second 2000 ms, each failure is logged, and after the third it logs
    that the retries are exhausted.  Without a client it makes no remote
    call at all. *)
Theorem C6_appendChatLog_retries timestamp from message senderType w :
  let values := mkRow timestamp from message senderType in
  let failed attempt :=
    [RemoteAppend values false;
     LoggerError ("Error appending chat log (attempt " +:+ attempt +:+ "):")] in
  let n := appends w in
  ∃ w' Δ,
    appendChatLog timestamp from message senderType 3 w = (Normal tt, w') ∧
    trace w' = trace w ++ AppendChatLog values :: Δ ∧
    Δ =
      if negb (sheets w) then []
      else if append_resolves n then [RemoteAppend values true]
      else if append_resolves (S n) then
        failed "1" ++ [Backoff 1000; RemoteAppend values true]
      else if append_resolves (S (S n)) then
        failed "1" ++ [Backoff 1000] ++
        failed "2" ++ [Backoff 2000; RemoteAppend values true]
      else
        failed "1" ++ [Backoff 1000] ++
        failed "2" ++ [Backoff 2000] ++
        failed "3" ++
        [LoggerError "Max retries reached for appending chat log."].
Proof.
  intros values failed n.
  unfold appendChatLog. fold values. rewrite modify_run, gets_run.
  change (sheets (emit (AppendChatLog values) w)) with (sheets w).
  destruct (sheets w); cbn [negb].
  2: { eexists _, _. split; [reflexivity|]. split; reflexivity. }
  cbn [appendChatLog_for].
  unfold try_catch, sheets_values_append, logger_error, sleep, modify,
    mbind, JS_bind, mret, JS_ret.
  cbn [appends emit set_appends set_now].
  subst n. destruct (append_resolves (appends w)).
  { eexists _, _. split; [reflexivity|]. cbn [trace emit set_appends].
    rewrite <- app_assoc. split; reflexivity. }
  cbn [Nat.eqb appends emit set_appends set_now].
  destruct (append_resolves (S (appends w))).
  { eexists _, _. split; [reflexivity|]. cbn [trace emit set_appends set_now].
    rewrite <- !app_assoc. split; reflexivity. }
  cbn [Nat.eqb appends emit set_appends set_now].
  destruct (append_resolves (S (S (appends w)))).
  { eexists _, _. split; [reflexivity|]. cbn [trace emit set_appends set_now].
    rewrite <- !app_assoc. split; reflexivity. }
  eexists _, _. split; [reflexivity|]. cbn [trace emit set_appends set_now].
  rewrite <- !app_assoc. split; reflexivity.
Qed.

(** *** Nothing but the inbound text is logged *)

Lemma quiet_ret {A} (a : A) : quiet (mret a).
Proof. intros w. exists []. by rewrite app_nil_r. Qed.

Lemma quiet_throw {A} e : quiet (throw (A := A) e).
Proof. intros w. exists []. by rewrite app_nil_r. Qed.

Lemma quiet_gets {A} (g : World → A) : quiet (gets g).
Proof. intros w. exists []. by rewrite app_nil_r. Qed.

Lemma quiet_modify g :
  (∀ w, ∃ Δ, trace (g w) = trace w ++ Δ ∧ chat_logs Δ = []) →
  quiet (modify g).
Proof. intros Hg w. apply Hg. Qed.

Lemma quiet_bind {A B} (m : JS A) (f : A → JS B) :
  quiet m → (∀ a, quiet (f a)) → quiet (m ≫= f).
Proof.
  intros Hm Hf w. destruct (Hm w) as (Δ1 & Ht1 & Hl1).
  unfold after, mbind, JS_bind in *. destruct (m w) as [[a|e] w1]; cbn in *.
  - destruct (Hf a w1) as (Δ2 & Ht2 & Hl2). unfold after in Ht2.
    exists (Δ1 ++ Δ2).
    rewrite Ht2, Ht1, <- app_assoc, chat_logs_app, Hl1, Hl2. done.
  - by exists Δ1.
Qed.

Lemma quiet_try_catch {A} (m : JS A) h :
  quiet m → (∀ e, quiet (h e)) → quiet (try_catch m h).
Proof.
  intros Hm Hh w. destruct (Hm w) as (Δ1 & Ht1 & Hl1).
  unfold after, try_catch in *. destruct (m w) as [[a|e] w1]; cbn in *.
  - by exists Δ1.
  - destruct (Hh e w1) as (Δ2 & Ht2 & Hl2). unfold after in Ht2.
    exists (Δ1 ++ Δ2).
    rewrite Ht2, Ht1, <- app_assoc, chat_logs_app, Hl1, Hl2. done.
Qed.

Lemma quiet_switch {A} x (cases : list (string * JS A)) default :
  Forall (λ kb, quiet kb.2) cases → quiet default →
  quiet (switch x cases default).
Proof.
  intros Hcases Hd. induction Hcases as [|[k body] cases Hb _ IH]; [done|].
  cbn. by destruct (String.eqb x k).
Qed.

Lemma quiet_silent g : (∀ w, trace (g w) = trace w) → quiet (modify g).
Proof.
  intros Hg. apply quiet_modify. intros w. exists [].
  by rewrite Hg, app_nil_r.
Qed.

Lemma quiet_logger_error text : quiet (logger_error text).
Proof. apply quiet_modify. intros w. by exists [LoggerError text]. Qed.

Lemma quiet_sock_sendMessage jid text : quiet (sock_sendMessage jid text).
Proof. intros w. by eexists [_]. Qed.

Lemma quiet_deref o : quiet (deref o).
Proof.
  intros w. exists []. rewrite app_nil_r. unfold after, deref.
  destruct o as [l|]; [destruct (heap w !! l)|]; done.
Qed.

Lemma quiet_setTimeout jid delay : quiet (setTimeout jid delay).
Proof. intros w. exists []. by rewrite app_nil_r. Qed.

Lemma quiet_new_Conversation : quiet new_Conversation.
Proof. intros w. exists []. by rewrite app_nil_r. Qed.

Create HintDb quiet.

#[local] Hint Resolve quiet_ret quiet_throw quiet_gets quiet_bind
  quiet_try_catch quiet_logger_error quiet_sock_sendMessage quiet_deref
  quiet_setTimeout quiet_new_Conversation : quiet.
#[local] Hint Extern 1 (quiet (modify _)) =>
  (apply quiet_silent; reflexivity) : quiet.
#[local] Hint Extern 1 (quiet (switch _ _ _)) =>
  (apply quiet_switch; [repeat constructor; cbn [snd]|]) : quiet.

Lemma quiet_read l : quiet (read l).
Proof. unfold read. apply quiet_bind; [auto with quiet|]. by intros []; auto with quiet. Qed.

Lemma quiet_write l f : quiet (write l f).
Proof.
  unfold write. apply quiet_bind; [apply quiet_read|]. auto with quiet.
Qed.

Lemma quiet_sendMessage jid message isBot : quiet (sendMessage jid message isBot).
Proof. unfold sendMessage. auto with quiet. Qed.

Lemma quiet_resetTimeout l jid : quiet (resetTimeout l jid).
Proof.
  unfold resetTimeout, clearTimeout.
  apply quiet_bind; [apply quiet_read|]. intros c.
  apply quiet_bind; [destruct (timeout c); auto with quiet|]. intros _.
  apply quiet_bind; [auto with quiet|]. intros t. apply quiet_write.
Qed.

#[local] Hint Resolve quiet_read quiet_write quiet_sendMessage
  quiet_resetTimeout : quiet.

Lemma quiet_conversations_delete jid : quiet (conversations_delete jid).
Proof. unfold conversations_delete. auto with quiet. Qed.

#[local] Hint Resolve quiet_conversations_delete : quiet.

Lemma quiet_handleMessage_new jid : quiet (handleMessage_new jid).
Proof.
  unfold handleMessage_new, conversations_set, conversations_get.
  repeat (apply quiet_bind; [auto with quiet|]; intros ?).
  match goal with p : (nat * Conversation)%type |- _ => destruct p end.
  auto with quiet.
Qed.

Lemma quiet_handleMessage_known jid messageText l c :
  quiet (handleMessage_known jid messageText l c).
Proof.
  unfold handleMessage_known.
  destruct (csActive c); [destruct (String.eqb _ _)|]; auto 10 with quiet.
  unfold handleMainMenu, handleInfoMenu, handlePdrbMenu, handleDummyMenu,
    handleDummySubmenu1, handleProdukMenu, handleProduk1Menu.
  apply quiet_switch; [repeat constructor; cbn [snd]|]; auto 10 with quiet.
Qed.

(** C3, as the program has it. Every inbound message that is not
    skipped makes exactly one call of [appendChatLog], for the inbound
    text and with sender type "user"; the replies are sent without any
    call to it. *)
Theorem C3_only_inbound_is_logged w msg m :
  message msg = Some m → fromMe (key msg) = false →
  chat_logs (trace (after (handleMessage msg) w)) =
    chat_logs (trace w) ++
    [mkRow (now w) (remoteJid (key msg)) (messageText_of m) "user"].
Proof.
  intros Hm Hfrom.
  destruct (handleMessage_processed msg m w Hm Hfrom)
    as (w1 & Δ & Hs & Hnow & Ht & Hout & Hlog & Hrun).
  unfold after. rewrite Hrun.
  assert (∃ Δ', trace (match conversations w !! remoteJid (key msg) with
                       | Some l =>
                           match heap w !! l with
                           | Some c =>
                               handleMessage_known (remoteJid (key msg))
                                 (messageText_of m) l c w1
                           | None => (Throw TypeError, w1)
                           end
                       | None => handleMessage_new (remoteJid (key msg)) w1
                       end).2 = trace w1 ++ Δ' ∧ chat_logs Δ' = [])
    as (Δ' & Ht' & Hlog').
  { destruct (conversations w !! _) as [l|];
      [destruct (heap w !! l) as [c|]|].
    - apply quiet_handleMessage_known.
    - exists []. by rewrite app_nil_r.
    - apply quiet_handleMessage_new. }
  rewrite Ht', Ht. change (?a :: Δ) with ([a] ++ Δ).
  rewrite !chat_logs_app, Hlog, Hlog'. cbn. by rewrite !app_nil_r.
Qed.

(** ** The event loop *)

(** C4, as the program has it. When the inactivity timer of a
    conversation expires, the inactivity notice is sent with the bot
    signature appended, like every other message of the bot, and the
    entry of the jid is deleted from the map. *)
Theorem C4_expiry_notice_is_signed w id p :
  turn w (TimerExpires id) p →
  ∃ t, timers w !! id = Some t ∧
       p.1 = Normal tt ∧
       outbound (trace p.2) =
         outbound (trace w) ++
         [(timer_jid t, inactivity_notice +:+ bot_signature)] ∧
       conversations p.2 = delete (timer_jid t) (conversations w) ∧
       timers p.2 = delete id (timers w).
Proof.
  inversion 1 as [|w0 id0 t Ht Hdue|]; subst. exists t. split; [done|].
  unfold resetTimeout_callback.
  erewrite bind_run by apply sendMessage_normal.
  rewrite sendMessage_run. cbn.
  destruct (send_resolves (sends w)); cbn;
    rewrite ?outbound_app, <- ?app_assoc, ?outbound_app; cbn;
    by rewrite ?app_nil_r.
Qed.

(** C10. Of a ['notify'] batch only [m.messages[0]] reaches
    [handleMessage]; what the listener does is what [handleMessage] does
    on the first message, whatever follows it in the batch. *)
Theorem C10_only_first_of_batch msg rest w :
  on_messages_upsert (mkUpsert (Some (msg :: rest)) "notify") w
    = handleMessage msg w ∧
  on_messages_upsert (mkUpsert (Some (msg :: rest)) "notify") w
    = on_messages_upsert (mkUpsert (Some [msg]) "notify") w.
Proof. split; reflexivity. Qed.

(** Ending the conversation with option 3 deletes the entry of the map
    and then, as every path through [handleMainMenu] does, calls
    [resetTimeout] on the object it still holds: the old timer is
    cancelled and a new one is armed for the jid that was just removed. *)
Lemma end_conversation_rearms w msg m c :
  message msg = Some m → fromMe (key msg) = false →
  let jid := remoteJid (key msg) in
  messageText_of m = "3" →
  conversation_of w jid = Some c →
  state c = "main" → csActive c = false →
  ∃ w', handleMessage msg w = (Normal tt, w') ∧
        conversations w' !! jid = None ∧
        timers w' !! next_timer w
          = Some (mkTimer jid (now w' + INACTIVITY_TIMEOUT)).
Proof.
  intros Hm Hfrom jid Hbody (l & Hl & Hc)%conversation_of_Some Hst Hcs.
  destruct (handleMessage_processed msg m w Hm Hfrom)
    as (w1 & Δ & Hs & Hnow & Ht & Hout & Hlog & ->).
  fold jid. rewrite Hl, Hc, Hbody. unfold handleMessage_known.
  rewrite Hcs, Hst, switch_hit. unfold handleMainMenu. switch_go.
  assert (Hc1 : heap w1 !! l = Some c) by (by destruct Hs as (_ & -> & _)).
  destruct (terminate_run jid "Percakapan diakhiri. Terima kasih." l _ w1 Hc1)
    as (w' & Hrun & Hcv & Hh).
  exists w'. split; [exact Hrun|].
  destruct (logged_then_handled _ _ _ _ _ _ _ _ _ Hs Ht Hout Hlog Hh)
    as (_ & Hti & _ & _).
  split.
  - rewrite Hcv. apply lookup_delete_eq.
  - rewrite Hti. apply lookup_insert_eq.
Qed.

(** *** The invariant of the store *)

(** Splits on the scrutinee of the outermost [switch] of the goal. *)
Ltac switch_cases x :=
  repeat match goal with
  | |- context [switch x ((?k, _) :: _) _] =>
      destruct (decide (x = k)) as [->|?];
        [rewrite switch_hit | rewrite switch_skip by done]
  end;
  cbn [switch].

(** With the handoff inactive and a state among the seven, every path
    through the handlers completes normally, writes one of the seven
    states, and leaves the map as it is or without the jid. *)
Lemma handleMessage_known_handled jid body l c w :
  heap w !! l = Some c → state c ∈ states →
  ∃ w' c' replies,
    handleMessage_known jid body l c w = (Normal tt, w') ∧
    handled jid l c' replies w w' ∧
    state c' ∈ states ∧
    timeout c' = timeout c ∧
    conversations w' ⊆ conversations w ∧
    (conversations w' = conversations w ∨
     conversations w' = delete jid (conversations w)).
Proof.
  intros Hc Hst. unfold handleMessage_known.
  destruct (csActive c); [destruct (String.eqb _ _)|].
  - destruct (resume_run (set_csActive false) (set_state "main") jid
                "Percakapan kembali diambil alih oleh bot." l c w Hc)
      as (w' & Hrun & Hcv & Hh).
    eexists w', _, _. split; [exact Hrun|]. split; [exact Hh|].
    split; [compute_done | split; [done | rewrite Hcv; by split; [|left]]].
  - destruct (resetTimeout_run l jid c w Hc) as (w' & Hrun & Hcv & _ & Hh).
    eexists w', _, _. split; [exact Hrun|]. split; [exact Hh|].
    split; [done | split; [done | rewrite Hcv; by split; [|left]]].
  - unfold states in Hst.
    repeat (apply elem_of_cons in Hst as [Hst|Hst]);
      [..| by apply elem_of_nil in Hst];
      rewrite Hst; switch_go;
      unfold handleMainMenu, handleInfoMenu, handlePdrbMenu, handleDummyMenu,
        handleDummySubmenu1, handleProdukMenu, handleProduk1Menu;
      switch_cases body;
      lazymatch goal with
      | |- context [((write l ?f ;; sendMessage jid ?r true) ;; _) w] =>
          destruct (navigate_run f jid r l c w Hc) as (w' & Hrun & Hcv & Hh)
      | |- context [((sendMessage jid ?r true ;; conversations_delete jid) ;; _) w] =>
          destruct (terminate_run jid r l c w Hc) as (w' & Hrun & Hcv & Hh)
      | |- context [(sendMessage jid ?r true ;; _) w] =>
          destruct (reprompt_run jid r l c w Hc) as (w' & Hrun & Hcv & Hh)
      end;
      eexists w', _, _; (split; [exact Hrun|]); (split; [exact Hh|]);
      (split; [cbn [state set_state set_csActive]; rewrite ?Hst; compute_done|]);
      (split; [done|]);
      rewrite Hcv;
      first [by split; [|left] | split; [apply delete_subseteq | by right]].
Qed.

(** [handleMessage] keeps the invariant and, in a world that satisfies
    it, never throws: no failure of the spreadsheet or of the transport
    escapes it. *)
Lemma handleMessage_store_ok msg w :
  store_ok w →
  ∃ w', handleMessage msg w = (Normal tt, w') ∧ store_ok w'.
Proof.
  intros [Hmap Hheap].
  destruct (message msg) as [m|] eqn:Hm;
    [destruct (fromMe (key msg)) eqn:Hfrom|].
  2: { destruct (handleMessage_processed msg m w Hm Hfrom)
         as (w1 & Δ & (Hcs1 & Hh1 & _) & _ & _ & _ & _ & ->).
       destruct (conversations w !! remoteJid (key msg)) as [l|] eqn:Hl.
       - destruct (Hmap _ _ Hl) as [c Hc]. rewrite Hc.
         destruct (handleMessage_known_handled (remoteJid (key msg))
                     (messageText_of m) l c w1)
           as (w' & c' & replies & Hrun & (Hh' & _) & Hst' & _ & Hsub & _);
           [by rewrite Hh1 | by eapply Hheap |].
         exists w'. split; [exact Hrun|]. rewrite Hh1 in Hh'. split.
         + intros j l' Hj. rewrite Hh'.
           eapply lookup_weaken in Hj; [|exact Hsub]. rewrite Hcs1 in Hj.
           destruct (decide (l = l')) as [->|Hne];
             [by rewrite lookup_insert_eq | rewrite lookup_insert_ne by done].
           by eapply Hmap.
         + intros l' c''. rewrite Hh'.
           destruct (decide (l = l')) as [->|Hne];
             [rewrite lookup_insert_eq; by intros [= <-]
             | rewrite lookup_insert_ne by done; apply Hheap].
       - destruct (handleMessage_new_run (remoteJid (key msg)) w1)
           as (w' & Hrun & _ & Hcv & Hh' & _).
         exists w'. split; [exact Hrun|].
         set (l := fresh (dom (heap w1))) in *. clearbody l.
         rewrite Hh1 in Hh'. rewrite Hcs1 in Hcv. split.
         + intros j l' Hj. rewrite Hh'. rewrite Hcv in Hj.
           destruct (decide (l = l')) as [->|Hne];
             [by rewrite lookup_insert_eq | rewrite lookup_insert_ne by done].
           destruct (decide (remoteJid (key msg) = j)) as [<-|Hnj];
             [rewrite lookup_insert_eq in Hj; congruence
             | rewrite lookup_insert_ne in Hj by done; by eapply Hmap].
         + intros l' c''. rewrite Hh'.
           destruct (decide (l = l')) as [->|Hne];
             [rewrite lookup_insert_eq; intros [= <-]; compute_done
             | rewrite lookup_insert_ne by done; apply Hheap]. }
  all: exists w; unfold handleMessage; rewrite Hm, ?Hfrom; by split.
Qed.

(** Every turn of the event loop keeps the invariant. *)
Lemma turn_store_ok w task p : turn w task p → store_ok w → store_ok p.2.
Proof.
  intros Hturn Hok. destruct Hturn as [w m|w id t Ht Hdue|w ms Hms].
  - unfold on_messages_upsert.
    destruct (messages m) as [batch|]; [|done].
    destruct (negb _); [done|]. destruct (batch !! 0%nat) as [msg|]; [|done].
    by destruct (handleMessage_store_ok msg w Hok) as (w' & -> & Hok').
  - unfold resetTimeout_callback.
    erewrite bind_run by apply sendMessage_normal.
    destruct Hok as [Hmap Hheap].
    unfold conversations_delete, modify, store_ok.
    cbn [snd conversations heap set_conversations].
    rewrite conversations_after_send, heap_after_send.
    cbn [conversations heap set_timers]. split.
    + intros j l [_ Hj]%lookup_delete_Some. by eapply Hmap.
    + done.
  - done.
Qed.

Lemma reachable_store_ok w : reachable w → store_ok w.
Proof.
  induction 1 as [|w task p _ IH Hturn].
  - split.
    + intros j l Hj. cbn [initial_world conversations] in Hj.
      by rewrite lookup_empty in Hj.
    + intros l c Hl. cbn [initial_world heap] in Hl.
      by rewrite lookup_empty in Hl.
  - by eapply turn_store_ok.
Qed.

End Properties.

(** * The uninterrupted functions on a concrete run *)

(** Jid "a" says "hi" on a reliable network and is greeted
    ([world_greeted]); the examples below continue from there. *)

Example greeted_conversation :
  conversation_of world_greeted "a"
    = Some (mkConversation "main" false (Some 0%nat)).
Proof. vm_compute. reflexivity. Qed.

Lemma C3_witness :
  chat_logs (trace world_greeted) = [mkRow 0 "a" "hi" "user"].
Proof.
  apply (C3_only_inbound_is_logged (H := reliable_host) initial_world
           (text_message "a" "hi") (mkMessage (Some "hi") None)).
  - reflexivity.
  - reflexivity.
Defined.

(** The claim that each reply is logged with sender type "bot" fails on
    the very first exchange: one reply goes out, the welcome message, and
    no row with sender type "bot" is handed to the sink. *)
Lemma C3_counterexample :
  length (outbound (trace world_greeted)) = 1%nat ∧
  length (filter (λ r, row_senderType r = "bot")
            (chat_logs (trace world_greeted))) = 0%nat.
Proof. split; vm_compute; reflexivity. Qed.

Lemma C4_witness :
  ∃ t, timers world_idle !! 0%nat = Some t ∧
       (resetTimeout_callback (H := reliable_host) "a"
          (set_timers (delete 0%nat) world_idle)).1 = Normal tt ∧
       outbound (trace (resetTimeout_callback (H := reliable_host) "a"
                          (set_timers (delete 0%nat) world_idle)).2) =
         outbound (trace world_idle) ++
         [(timer_jid t, inactivity_notice +:+ bot_signature)] ∧
       conversations (resetTimeout_callback (H := reliable_host) "a"
                        (set_timers (delete 0%nat) world_idle)).2
         = delete (timer_jid t) (conversations world_idle) ∧
       timers (resetTimeout_callback (H := reliable_host) "a"
                 (set_timers (delete 0%nat) world_idle)).2
         = delete 0%nat (timers world_idle).
Proof.
  apply (C4_expiry_notice_is_signed (H := reliable_host) world_idle 0%nat).
  apply (turn_timer world_idle 0%nat (mkTimer "a" 120000)).
  - vm_compute. reflexivity.
  - vm_compute. discriminate.
Defined.

(** The claim that the inactivity notice goes out without the bot
    signature fails whenever a timer expires: here for jid "a", idle
    since the greeting.  The text handed to the transport is the notice
    with the signature appended, and the bare notice is never sent. *)
Lemma C4_counterexample :
  ∃ p, turn (H := reliable_host) world_idle (TimerExpires 0%nat) p ∧
       last (outbound (trace p.2))
         = Some ("a", inactivity_notice +:+ bot_signature) ∧
       ("a", inactivity_notice) ∉ outbound (trace p.2).
Proof.
  eexists. split; [|split].
  - apply (turn_timer world_idle 0%nat (mkTimer "a" 120000)).
    + vm_compute. reflexivity.
    + vm_compute. discriminate.
  - vm_compute. reflexivity.
  - compute_done.
Qed.

(** C5 does not hold of the program.  Jid "a" is greeted and chooses 3:
    the conversation is gone from the map, but a timer for "a" is
    pending, armed by the [resetTimeout] that closes [handleMainMenu].
    Two minutes later it expires and "a", who ended the conversation,
    is told that it ended for lack of an answer. *)
Theorem C5_ended_conversation_keeps_a_timer :
  conversations world_ended !! "a" = None ∧
  timers_of world_ended "a" = {[ 1%nat := mkTimer "a" INACTIVITY_TIMEOUT ]} ∧
  ∃ p, turn (H := reliable_host)
         (set_now INACTIVITY_TIMEOUT world_ended) (TimerExpires 1%nat) p ∧
       last (outbound (trace p.2))
         = Some ("a", inactivity_notice +:+ bot_signature).
Proof.
  split; [|split].
  - vm_compute. reflexivity.
  - apply map_eq. intros i. unfold timers_of.
    destruct (decide (i = 1%nat)) as [->|Hne].
    + vm_compute. reflexivity.
    + rewrite lookup_singleton_ne by done.
      apply map_lookup_filter_None. right. intros t Ht.
      assert (timers world_ended = {[ 1%nat := mkTimer "a" INACTIVITY_TIMEOUT ]})
        as Heq by (apply map_eq; intros j; vm_compute; reflexivity).
      rewrite Heq, lookup_singleton_ne in Ht; done.
  - eexists. split.
    + apply (turn_timer _ 1%nat (mkTimer "a" 120000)).
      * vm_compute. reflexivity.
      * vm_compute. discriminate.
    + vm_compute. reflexivity.
Qed.

(** * The rest of the program *)

Section Coverage.
Context `{Host}.

(** ** The other menus *)

(** A message to a known conversation whose handling completes with one
    reply: what it leaves, seen from the world before the message. *)
Lemma replied_message c' reply w msg m l c :
  message msg = Some m → fromMe (key msg) = false →
  conversations w !! remoteJid (key msg) = Some l → heap w !! l = Some c →
  (∀ w1, heap w1 !! l = Some c →
     ∃ w', handleMessage_known (remoteJid (key msg)) (messageText_of m) l c w1
             = (Normal tt, w') ∧
           conversations w' = conversations w1 ∧
           handled (remoteJid (key msg)) l c' [reply] w1 w') →
  ∃ w', handleMessage msg w = (Normal tt, w') ∧
        conversation_of w' (remoteJid (key msg))
          = Some (set_timeout (Some (next_timer w)) c') ∧
        outbound (trace w') =
          outbound (trace w) ++
          [(remoteJid (key msg), reply +:+ bot_signature)] ∧
        now w <= now w'.
Proof.
  intros Hm Hfrom Hl Hc Hknown.
  destruct (handleMessage_processed msg m w Hm Hfrom)
    as (w1 & Δ & Hs & Hnow & Ht & Hout & Hlog & ->).
  rewrite Hl, Hc.
  destruct (Hknown w1) as (w' & Hrun & Hcv & Hh);
    [by destruct Hs as (_ & -> & _)|].
  exists w'. split; [exact Hrun|].
  destruct (logged_then_handled _ _ _ _ _ _ _ _ _ Hs Ht Hout Hlog Hh)
    as (Hh' & _ & Hout' & _).
  split; [|split; [exact Hout'|]].
  - apply conversation_of_Some. exists l.
    destruct Hs as (Hcs1 & _). by rewrite Hcv, Hcs1.
  - destruct Hh as (_ & _ & _ & -> & _). done.
Qed.

(** Resolves the [switch]es of the program, not those of a statement. *)
Ltac run_switch :=
  repeat first [ rewrite (switch_hit (A := JS unit))
               | rewrite (switch_skip (A := JS unit)) by done ];
  cbn [switch].

(** Splits a goal on whether the text is each label of a statement. *)
Ltac label_cases x :=
  repeat match goal with
  | |- context [@switch Prop x ((?k, _) :: _) _] =>
      let E := fresh "Hlabel" in
      destruct (decide (x = k)) as [E|E];
        [rewrite E, (switch_hit (A := Prop))
        | rewrite (switch_skip (A := Prop)) by done]
  end;
  cbn [switch].

(** Closes one row of a handler's table: the handler is run to the body
    of its [case], which has one of the three shapes. *)
Ltac handler_row Hm Hfrom Hl Hc Hcs Hst :=
  lazymatch goal with
  | |- (handleMessage ?msg ?w).1 = Normal tt ∧ _ =>
      edestruct replied_message with (w := w) (msg := msg)
        as (?w' & ?Hrun & ?Hconv & ?Hout & _);
        [ exact Hm | exact Hfrom | exact Hl | exact Hc
        | intros w1 Hc1; unfold handleMessage_known;
          cbn [csActive state] in *; rewrite ?Hcs, ?Hst; run_switch;
          unfold handleMainMenu, handleInfoMenu, handlePdrbMenu,
            handleDummyMenu, handleDummySubmenu1, handleProdukMenu,
            handleProduk1Menu;
          repeat match goal with Hlabel : messageText_of _ = _ |- _ =>
            rewrite Hlabel; clear Hlabel end;
          run_switch;
          first [ eapply navigate_run | eapply reprompt_run ]; exact Hc1
        | unfold after; rewrite Hrun; cbn [fst snd];
          split; [reflexivity | split; [exact Hconv | exact Hout]] ]
  end.

(** The Info menu, handoff inactive: 1 enters Pdrb and shows its
    menu, 2 returns to Main and shows the Main menu, any other text shows
    the Info menu again behind the invalid-choice line.  Each time one
    message goes out and of the conversation only the state and the timer
    handle change. *)
Lemma info_menu_uninterrupted w msg m c :
  message msg = Some m → fromMe (key msg) = false →
  let jid := remoteJid (key msg) in
  conversation_of w jid = Some c →
  state c = "info" → csActive c = false →
  let w' := after (handleMessage msg) w in
  let moves_to s :=
    conversation_of w' jid
      = Some (mkConversation s false (Some (next_timer w))) in
  let answers reply :=
    outbound (trace w')
      = outbound (trace w) ++ [(jid, reply +:+ bot_signature)] in
  (handleMessage msg w).1 = Normal tt ∧
  switch (messageText_of m)
    [ ("1", moves_to "pdrb" ∧ answers (formatMenu "Menu PDRB" MENUS.pdrb));
      ("2", moves_to "main" ∧ answers (formatMenu "Menu" MENUS.main)) ]
    (moves_to "info" ∧
     answers (invalid_choice +:+ formatMenu "Menu Info" MENUS.info)).
Proof.
  intros Hm Hfrom jid (l & Hl & Hc)%conversation_of_Some Hst Hcs w' moves_to
    answers.
  destruct c as [st cs tm]. cbn in Hst, Hcs. subst st cs.
  subst moves_to answers w' jid. cbv beta.
  label_cases (messageText_of m); handler_row Hm Hfrom Hl Hc Hcs Hst.
Qed.

(** The Pdrb menu, handoff inactive: 1 returns to Info and shows the Info
    menu; any other text, 2 included although the menu lists it as the
    way back, shows the Pdrb menu again behind the invalid-choice line. *)
Lemma pdrb_menu_uninterrupted w msg m c :
  message msg = Some m → fromMe (key msg) = false →
  let jid := remoteJid (key msg) in
  conversation_of w jid = Some c →
  state c = "pdrb" → csActive c = false →
  let w' := after (handleMessage msg) w in
  let moves_to s :=
    conversation_of w' jid
      = Some (mkConversation s false (Some (next_timer w))) in
  let answers reply :=
    outbound (trace w')
      = outbound (trace w) ++ [(jid, reply +:+ bot_signature)] in
  (handleMessage msg w).1 = Normal tt ∧
  switch (messageText_of m)
    [ ("1", moves_to "info" ∧ answers (formatMenu "Menu Info" MENUS.info)) ]
    (moves_to "pdrb" ∧
     answers (invalid_choice +:+ formatMenu "Menu PDRB" MENUS.pdrb)).
Proof.
  intros Hm Hfrom jid (l & Hl & Hc)%conversation_of_Some Hst Hcs w' moves_to
    answers.
  destruct c as [st cs tm]. cbn in Hst, Hcs. subst st cs.
  subst moves_to answers w' jid. cbv beta.
  label_cases (messageText_of m); handler_row Hm Hfrom Hl Hc Hcs Hst.
Qed.

(** The Dummy menu, handoff inactive: 1 enters Dummy Submenu 1, 2 returns
    to Main, any other text shows the Dummy menu again behind the
    invalid-choice line. *)
Lemma dummy_menu_uninterrupted w msg m c :
  message msg = Some m → fromMe (key msg) = false →
  let jid := remoteJid (key msg) in
  conversation_of w jid = Some c →
  state c = "dummyMenu" → csActive c = false →
  let w' := after (handleMessage msg) w in
  let moves_to s :=
    conversation_of w' jid
      = Some (mkConversation s false (Some (next_timer w))) in
  let answers reply :=
    outbound (trace w')
      = outbound (trace w) ++ [(jid, reply +:+ bot_signature)] in
  (handleMessage msg w).1 = Normal tt ∧
  switch (messageText_of m)
    [ ("1", moves_to "dummySubmenu1" ∧
              answers (formatMenu "Dummy Submenu 1" MENUS.dummySubmenu1));
      ("2", moves_to "main" ∧ answers (formatMenu "Menu" MENUS.main)) ]
    (moves_to "dummyMenu" ∧
     answers (invalid_choice +:+ formatMenu "Dummy Menu" MENUS.dummyMenu)).
Proof.
  intros Hm Hfrom jid (l & Hl & Hc)%conversation_of_Some Hst Hcs w' moves_to
    answers.
  destruct c as [st cs tm]. cbn in Hst, Hcs. subst st cs.
  subst moves_to answers w' jid. cbv beta.
  label_cases (messageText_of m); handler_row Hm Hfrom Hl Hc Hcs Hst.
Qed.

(** Dummy Submenu 1, handoff inactive: 1 returns to the Dummy menu; any
    other text shows the submenu again behind the invalid-choice line. *)
Lemma dummy_submenu_uninterrupted w msg m c :
  message msg = Some m → fromMe (key msg) = false →
  let jid := remoteJid (key msg) in
  conversation_of w jid = Some c →
  state c = "dummySubmenu1" → csActive c = false →
  let w' := after (handleMessage msg) w in
  let moves_to s :=
    conversation_of w' jid
      = Some (mkConversation s false (Some (next_timer w))) in
  let answers reply :=
    outbound (trace w')
      = outbound (trace w) ++ [(jid, reply +:+ bot_signature)] in
  (handleMessage msg w).1 = Normal tt ∧
  switch (messageText_of m)
    [ ("1", moves_to "dummyMenu" ∧
              answers (formatMenu "Dummy Menu" MENUS.dummyMenu)) ]
    (moves_to "dummySubmenu1" ∧
     answers (invalid_choice +:+ formatMenu "Dummy Submenu 1" MENUS.dummySubmenu1)).
Proof.
  intros Hm Hfrom jid (l & Hl & Hc)%conversation_of_Some Hst Hcs w' moves_to
    answers.
  destruct c as [st cs tm]. cbn in Hst, Hcs. subst st cs.
  subst moves_to answers w' jid. cbv beta.
  label_cases (messageText_of m); handler_row Hm Hfrom Hl Hc Hcs Hst.
Qed.

(** The Produk menu, handoff inactive: 1 enters Produk 1 and shows its
    detail menu; 2 and 3 stay in Produk and show the Produk menu again,
    without the invalid-choice line; 4 returns to Main; any other text
    shows the Produk menu behind the invalid-choice line. *)
Lemma produk_menu_uninterrupted w msg m c :
  message msg = Some m → fromMe (key msg) = false →
  let jid := remoteJid (key msg) in
  conversation_of w jid = Some c →
  state c = "produk" → csActive c = false →
  let w' := after (handleMessage msg) w in
  let moves_to s :=
    conversation_of w' jid
      = Some (mkConversation s false (Some (next_timer w))) in
  let answers reply :=
    outbound (trace w')
      = outbound (trace w) ++ [(jid, reply +:+ bot_signature)] in
  (handleMessage msg w).1 = Normal tt ∧
  switch (messageText_of m)
    [ ("1", moves_to "produk1" ∧
              answers (formatMenu "Detail Produk 1" MENUS.produk1));
      ("2", moves_to "produk" ∧ answers (formatMenu "Produk" MENUS.produk));
      ("3", moves_to "produk" ∧ answers (formatMenu "Produk" MENUS.produk));
      ("4", moves_to "main" ∧ answers (formatMenu "Menu" MENUS.main)) ]
    (moves_to "produk" ∧
     answers (invalid_choice +:+ formatMenu "Produk" MENUS.produk)).
Proof.
  intros Hm Hfrom jid (l & Hl & Hc)%conversation_of_Some Hst Hcs w' moves_to
    answers.
  destruct c as [st cs tm]. cbn in Hst, Hcs. subst st cs.
  subst moves_to answers w' jid. cbv beta.
  label_cases (messageText_of m); handler_row Hm Hfrom Hl Hc Hcs Hst.
Qed.

(** The Produk 1 menu, handoff inactive: 1 returns to Produk; any other
    text shows the detail menu again behind the invalid-choice line. *)
Lemma produk1_menu_uninterrupted w msg m c :
  message msg = Some m → fromMe (key msg) = false →
  let jid := remoteJid (key msg) in
  conversation_of w jid = Some c →
  state c = "produk1" → csActive c = false →
  let w' := after (handleMessage msg) w in
  let moves_to s :=
    conversation_of w' jid
      = Some (mkConversation s false (Some (next_timer w))) in
  let answers reply :=
    outbound (trace w')
      = outbound (trace w) ++ [(jid, reply +:+ bot_signature)] in
  (handleMessage msg w).1 = Normal tt ∧
  switch (messageText_of m)
    [ ("1", moves_to "produk" ∧ answers (formatMenu "Produk" MENUS.produk)) ]
    (moves_to "produk1" ∧
     answers (invalid_choice +:+ formatMenu "Detail Produk 1" MENUS.produk1)).
Proof.
  intros Hm Hfrom jid (l & Hl & Hc)%conversation_of_Some Hst Hcs w' moves_to
    answers.
  destruct c as [st cs tm]. cbn in Hst, Hcs. subst st cs.
  subst moves_to answers w' jid. cbv beta.
  label_cases (messageText_of m); handler_row Hm Hfrom Hl Hc Hcs Hst.
Qed.

(** ** A state outside the table *)

Lemma recover_run f jid reply l c w :
  heap w !! l = Some c →
  ∃ w', (write l f ;; sendMessage jid reply true ;; resetTimeout l jid) w
          = (Normal tt, w') ∧
        conversations w' = conversations w ∧
        handled jid l (f c) [reply] w w'.
Proof.
  intros Hl.
  set (w1 := set_heap <[l := f c]> w).
  set (w2 := (sendMessage jid reply true w1).2).
  assert (Hl2 : heap w2 !! l = Some (f c)).
  { unfold w2. rewrite heap_after_send. apply lookup_insert_eq. }
  destruct (resetTimeout_run l jid _ w2 Hl2) as (w' & Hrun & Hc & _ & Hh).
  exists w'. split; [|split].
  - erewrite bind_run by (by apply write_run).
    erewrite bind_run by apply sendMessage_normal. exact Hrun.
  - rewrite Hc. unfold w2. by rewrite conversations_after_send.
  - by apply handled_after_write with (c1 := f c), handled_after_send.
Qed.

(** Should a conversation hold a state that is none of the seven,
    the [default] branch of [handleMessage] brings it back: whatever the
    text, the state becomes main and the Main menu is sent, without the
    invalid-choice line. *)
Lemma unknown_state_uninterrupted w msg m c :
  message msg = Some m → fromMe (key msg) = false →
  let jid := remoteJid (key msg) in
  conversation_of w jid = Some c →
  state c ∉ states → csActive c = false →
  ∃ w', handleMessage msg w = (Normal tt, w') ∧
        conversation_of w' jid
          = Some (mkConversation "main" false (Some (next_timer w))) ∧
        outbound (trace w') =
          outbound (trace w) ++
          [(jid, formatMenu "Menu" MENUS.main +:+ bot_signature)].
Proof.
  intros Hm Hfrom jid (l & Hl & Hc)%conversation_of_Some Hst Hcs.
  destruct (replied_message (set_state "main" c) (formatMenu "Menu" MENUS.main)
              w msg m l c Hm Hfrom Hl Hc) as (w' & Hrun & Hconv & Hout & _).
  - intros w1 Hc1. unfold handleMessage_known. rewrite Hcs.
    rewrite switch_default by exact Hst. by apply recover_run.
  - exists w'. split; [exact Hrun|]. split; [|exact Hout].
    destruct c as [st cs tm]. cbn in Hcs. by subst cs.
Qed.

(** ** Invariants of the event loop *)

Lemma timers_after_send jid reply w :
  timers (sendMessage jid reply true w).2 = timers w ∧
  next_timer (sendMessage jid reply true w).2 = next_timer w ∧
  now (sendMessage jid reply true w).2 = now w ∧
  sheets (sendMessage jid reply true w).2 = sheets w.
Proof. rewrite sendMessage_run. by destruct (send_resolves (sends w)). Qed.

Lemma handled_timers_ok jid l c' replies w w' :
  timers_ok w → handled jid l c' replies w w' → timers_ok w'.
Proof.
  intros [Hti Hhe] (Hh' & Hti' & Hn' & _). split.
  - intros id t. rewrite Hti', Hn'.
    destruct (decide (next_timer w = id)) as [<-|Hne]; [lia|].
    rewrite lookup_insert_ne by done. intros Hid.
    assert (timers w !! id = Some t) as Hid'.
    { destruct (timeout c'); cbn [cancel] in Hid; [|done].
      by apply lookup_delete_Some in Hid as [_ ?]. }
    apply Hti in Hid'. lia.
  - intros l0 c0 id. rewrite Hh', Hn'.
    destruct (decide (l = l0)) as [<-|Hne].
    + rewrite lookup_insert_eq. intros [= <-] [= <-]. lia.
    + rewrite lookup_insert_ne by done. intros Hl0 Hid.
      pose proof (Hhe _ _ _ Hl0 Hid). lia.
Qed.

Lemma same_state_timers_ok w w1 : same_state w w1 → timers_ok w → timers_ok w1.
Proof.
  intros (_ & Hh & Hti & Hn & _) [H1 H2].
  split; [intros id t | intros l c id]; rewrite ?Hh, ?Hti, Hn; eauto.
Qed.

(** The two invariants together, and what a message does to a world
    that satisfies them. *)
Lemma handleMessage_invariants msg w :
  store_ok w → timers_ok w →
  ∃ w', handleMessage msg w = (Normal tt, w') ∧ store_ok w' ∧ timers_ok w' ∧
        sheets w' = sheets w ∧ now w <= now w'.
Proof.
  intros Hok Hti.
  destruct (handleMessage_store_ok msg w Hok) as (w' & Hrun & Hok').
  exists w'. split; [exact Hrun|]. split; [exact Hok'|].
  destruct (message msg) as [m|] eqn:Hm;
    [destruct (fromMe (key msg)) eqn:Hfrom|].
  2: { destruct (handleMessage_processed msg m w Hm Hfrom)
         as (w1 & Δ & Hs & Hnow & _ & _ & _ & Hrun').
       rewrite Hrun in Hrun'.
       pose proof (same_state_timers_ok _ _ Hs Hti) as Hti1.
       assert (sheets w1 = sheets w) as Hsh by (by destruct Hs as (_&_&_&_&?&_)).
       destruct Hok as [Hmap Hheap].
       destruct (conversations w !! remoteJid (key msg)) as [l|] eqn:Hl.
       - destruct (Hmap _ _ Hl) as [c Hc]. rewrite Hc in Hrun'.
         destruct (handleMessage_known_handled (remoteJid (key msg))
                     (messageText_of m) l c w1)
           as (w2 & c' & replies & Hrun2 & Hh & _);
           [by destruct Hs as (_ & -> & _) | by eapply Hheap |].
         rewrite Hrun2 in Hrun'. injection Hrun' as ->.
         split; [by eapply handled_timers_ok|].
         destruct Hh as (_ & _ & _ & -> & -> & _). done.
       - destruct (handleMessage_new_run (remoteJid (key msg)) w1)
           as (w2 & Hrun2 & _ & _ & Hh).
         rewrite Hrun2 in Hrun'. injection Hrun' as ->.
         split; [by eapply handled_timers_ok|].
         destruct Hh as (_ & _ & _ & -> & -> & _). done. }
  all: unfold handleMessage in Hrun; rewrite Hm, ?Hfrom in Hrun;
    injection Hrun as <-; done.
Qed.

Lemma turn_invariants w task p :
  turn w task p →
  store_ok w ∧ timers_ok w ∧ sheets w = true →
  store_ok p.2 ∧ timers_ok p.2 ∧ sheets p.2 = true.
Proof.
  intros Hturn (Hok & Hti & Hsh).
  split; [by eapply turn_store_ok|].
  destruct Hturn as [w m|w id t Ht Hdue|w ms Hms].
  - unfold on_messages_upsert.
    destruct (messages m) as [batch|]; [|done].
    destruct (negb _); [done|]. destruct (batch !! 0%nat) as [msg|]; [|done].
    destruct (handleMessage_invariants msg w Hok Hti)
      as (w' & -> & _ & Hti' & Hsh' & _).
    cbn [snd]. split; [done | by rewrite Hsh'].
  - unfold resetTimeout_callback.
    erewrite bind_run by apply sendMessage_normal.
    unfold conversations_delete, modify, timers_ok.
    cbn [snd timers heap next_timer sheets set_conversations].
    destruct (timers_after_send (timer_jid t) inactivity_notice
                (set_timers (delete id) w)) as (-> & -> & _ & ->).
    rewrite heap_after_send. cbn [timers heap next_timer sheets set_timers].
    destruct Hti as [H1 H2]. split; [split|done]; [|done].
    intros i t' [_ Hi]%lookup_delete_Some. by eapply H1.
  - done.
Qed.

Lemma reachable_invariants w :
  reachable w → store_ok w ∧ timers_ok w ∧ sheets w = true.
Proof.
  induction 1 as [|w task p _ IH Hturn].
  - split; [by apply reachable_store_ok; constructor|].
    split; [|done].
    split; [intros id t Hid | intros l c id Hl];
      cbn [initial_world timers heap] in *; by rewrite lookup_empty in *.
  - by eapply turn_invariants.
Qed.


(** In a reachable world the listener of ['messages.upsert'] throws
    in exactly one case: a notify batch that holds no message, where
    [handleMessage] is called on [undefined].  It then throws a
    [TypeError] and leaves the world as it was.  No failure of the
    spreadsheet or of the transport makes it throw. *)
Lemma listener_uninterrupted w m :
  store_ok w → timers_ok w →
  ((on_messages_upsert m w).1 = Normal tt ↔
   ¬ (messages m = Some [] ∧ type m = "notify")) ∧
  ((on_messages_upsert m w).1 ≠ Normal tt ↔
   on_messages_upsert m w = (Throw TypeError, w)).
Proof.
  intros Hok Hti.
  unfold on_messages_upsert.
  destruct (messages m) as [[|msg rest]|] eqn:Hmsgs;
    destruct (String.eqb_spec (type m) "notify") as [Hty|Hty];
    cbn [negb lookup list_lookup];
    try (split; split; [intros _ [? ?]; congruence | done | done
                       | intros [=]]).
  - split; split; [done | intros Hn; by destruct Hn | done | done].
  - destruct (handleMessage_invariants msg w Hok Hti) as (w' & -> & _).
    split; split; [intros _ [[=] _] | done | done | intros [=]].
Qed.

(** X10. Events that are not for the bot change nothing: an upsert
    without messages or of a type other than notify, and a batch whose
    first message is an echo of the bot's own sending or carries no
    content, leave the world exactly as it was.  No row is logged, no
    reply is sent, no timer is touched and no conversation is created. *)
Theorem X10_ignored_events_change_nothing w m :
  messages m = None ∨ type m ≠ "notify" ∨
  (∃ msg rest, messages m = Some (msg :: rest) ∧
               (message msg = None ∨ fromMe (key msg) = true)) →
  on_messages_upsert m w = (Normal tt, w).
Proof.
  unfold on_messages_upsert.
  intros [-> | [Hty | (msg & rest & -> & Hskip)]]; [done| |].
  - destruct (messages m); [|done].
    by apply String.eqb_neq in Hty as ->.
  - destruct (negb _); [done|]. cbn [lookup list_lookup].
    unfold handleMessage. destruct Hskip as [-> | Hme]; [done|].
    rewrite Hme. by destruct (message msg).
Qed.

(** ** The inactivity timer *)

(** Any message to a known conversation of a world that satisfies the
    store invariant. *)
Lemma processed_known w msg m l c :
  message msg = Some m → fromMe (key msg) = false →
  conversations w !! remoteJid (key msg) = Some l →
  heap w !! l = Some c → state c ∈ states →
  ∃ w1 w' c' replies,
    same_state w w1 ∧ now w <= now w1 ∧
    handleMessage msg w = (Normal tt, w') ∧
    handled (remoteJid (key msg)) l c' replies w1 w' ∧
    timeout c' = timeout c ∧ state c' ∈ states ∧
    (conversations w' = conversations w ∨
     conversations w' = delete (remoteJid (key msg)) (conversations w)).
Proof.
  intros Hm Hfrom Hl Hc Hst.
  destruct (handleMessage_processed msg m w Hm Hfrom)
    as (w1 & Δ & Hs & Hnow & _ & _ & _ & ->).
  rewrite Hl, Hc.
  destruct (handleMessage_known_handled (remoteJid (key msg))
              (messageText_of m) l c w1)
    as (w' & c' & replies & Hrun & Hh & Hst' & Htm & _ & Hcv);
    [by destruct Hs as (_ & -> & _) | done |].
  exists w1, w', c', replies.
  split; [exact Hs|]. split; [exact Hnow|]. split; [exact Hrun|].
  split; [exact Hh|]. split; [exact Htm|]. split; [exact Hst'|].
  by destruct Hs as (<- & _).
Qed.

(** In a reachable world, a message to a known conversation,
    whatever its state and whatever the text, cancels exactly the timer
    the conversation held and arms exactly one new timer, for the same
    jid and due [INACTIVITY_TIMEOUT] after the handling; the conversation
    object holds the new handle and every other timer is left alone. *)
Lemma rearmed_uninterrupted w msg m l c :
  store_ok w → timers_ok w →
  message msg = Some m → fromMe (key msg) = false →
  let jid := remoteJid (key msg) in
  conversations w !! jid = Some l → heap w !! l = Some c →
  ∃ w' c',
    handleMessage msg w = (Normal tt, w') ∧
    now w <= now w' ∧
    heap w' !! l = Some c' ∧ timeout c' = Some (next_timer w) ∧
    timers w' !! next_timer w
      = Some (mkTimer jid (now w' + INACTIVITY_TIMEOUT)) ∧
    (∀ old, timeout c = Some old → timers w' !! old = None) ∧
    (∀ id, id ≠ next_timer w → timeout c ≠ Some id →
           timers w' !! id = timers w !! id).
Proof.
  intros [_ Hheap] [_ Hhandles] Hm Hfrom jid Hl Hc.
  destruct (processed_known w msg m l c Hm Hfrom Hl Hc)
    as (w1 & w' & c' & replies & Hs & Hnow1 & Hrun & Hh & Htm & _);
    [by eapply Hheap|].
  destruct Hs as (_ & Hh1 & Hti1 & Hn1 & _).
  destruct Hh as (Hh' & Hti' & _ & Hnow' & _).
  rewrite Hh1, Hn1 in Hh'. rewrite Hti1, Hn1, Htm, <- Hnow' in Hti'.
  exists w', (set_timeout (Some (next_timer w)) c').
  split; [exact Hrun|]. split; [by rewrite Hnow'|].
  split; [by rewrite Hh', lookup_insert_eq|].
  split; [done|]. split; [by rewrite Hti', lookup_insert_eq|]. split.
  - intros old Hold. pose proof (Hhandles _ _ _ Hc Hold) as Hlt.
    rewrite Hti', lookup_insert_ne by lia. rewrite Hold.
    apply lookup_delete_eq.
  - intros id Hne Hnot. rewrite Hti', lookup_insert_ne by done.
    destruct (timeout c) as [old|]; [|done].
    apply lookup_delete_ne. congruence.
Qed.

(** ** The sink with any number of retries *)

Lemma appendChatLog_for_clock todo attempt retries values w :
  (attempt + todo = retries + 1)%nat → (1 <= attempt)%nat →
  now (after (appendChatLog_for todo attempt retries values) w)
    <= now w + Z.max 0 (backoff_left attempt retries).
Proof.
  revert attempt w. induction todo as [|todo IH]; intros attempt w Hsum Hpos.
  - unfold after. cbn. lia.
  - unfold after. cbn [appendChatLog_for].
    unfold try_catch, sheets_values_append, logger_error, sleep, modify,
      mbind, JS_bind, mret, JS_ret.
    destruct (append_resolves (appends w)).
    + cbn. lia.
    + destruct (Nat.eqb_spec attempt retries) as [->|Hne].
      * assert (todo = 0%nat) as -> by lia. cbn. lia.
      * match goal with |- context [appendChatLog_for todo _ _ _ ?w1] =>
          pose proof (IH (S attempt) w1 ltac:(lia) ltac:(lia)) as Hle
        end.
        unfold after in Hle. cbn [now emit set_now set_appends] in Hle.
        etransitivity; [exact Hle|]. unfold backoff_left.
        rewrite Nat2Z.inj_succ.
        assert (Z.of_nat attempt + 1 <= Z.of_nat retries) by lia.
        rewrite !Z.max_r by nia. nia.
Qed.

Lemma backoff_left_nonneg retries : 0 <= backoff_left 1 retries.
Proof.
  unfold backoff_left. destruct retries as [|n]; [done|].
  rewrite Nat2Z.inj_succ. change (Z.of_nat 1) with 1. nia.
Qed.

(** What [appendChatLog] does for any number of retries. *)
Lemma sink_bounds timestamp from message senderType retries w :
  ∃ w' Δ,
    appendChatLog timestamp from message senderType retries w
      = (Normal tt, w') ∧
    same_state w w' ∧
    trace w' =
      trace w ++ AppendChatLog (mkRow timestamp from message senderType) :: Δ ∧
    outbound Δ = [] ∧ chat_logs Δ = [] ∧
    (if sheets w then
       attempts Δ = replicate retries false ∨
       ∃ k, (k < retries)%nat ∧ attempts Δ = replicate k false ++ [true]
     else Δ = []) ∧
    now w <= now w' <= now w + backoff_left 1 retries.
Proof.
  unfold appendChatLog. rewrite modify_run, gets_run.
  change (sheets (emit _ w)) with (sheets w).
  destruct (sheets w); cbn [negb].
  - set (values := mkRow timestamp from message senderType).
    set (w0 := emit (AppendChatLog values) w).
    pose proof (appendChatLog_for_clock retries 1 retries values w0
                  ltac:(lia) ltac:(lia)) as Hclock.
    destruct (appendChatLog_for_spec retries 1 retries values w0)
      as (w' & Δ & Hrun & Hs & Hnow & Ht & Hout & Hlog & Hatt).
    unfold after in Hclock. rewrite Hrun in Hclock.
    exists w', Δ. split; [exact Hrun|]. split; [exact Hs|].
    split; [by rewrite Ht; unfold w0; cbn; rewrite <- app_assoc|].
    split; [exact Hout|]. split; [exact Hlog|]. split; [exact Hatt|].
    cbn [now fst snd] in *. unfold w0 in *. cbn [now emit] in *.
    pose proof (backoff_left_nonneg retries). lia.
  - eexists _, []. split; [reflexivity|].
    split; [unfold same_state; cbn; by repeat split|].
    split; [reflexivity|]. repeat split; try done.
    cbn [now emit]. pose proof (backoff_left_nonneg retries). lia.
Qed.

(** X13. For every natural number of retries, [appendChatLog] run by
    itself completes normally
    and touches neither the conversations, the timers nor the transport.
    With the client initialised the remote append is tried until it
    resolves, at most [retries] times, so every attempt but the last has
    failed; without a client nothing is tried.  The waits between the
    attempts add up to at most [500 * retries * (retries - 1)] ms. *)
Theorem X13_appendChatLog_any_retries timestamp from message senderType
    retries w :
  ∃ w' Δ,
    appendChatLog timestamp from message senderType retries w
      = (Normal tt, w') ∧
    same_state w w' ∧
    trace w' =
      trace w ++ AppendChatLog (mkRow timestamp from message senderType) :: Δ ∧
    outbound Δ = [] ∧
    (if sheets w then
       attempts Δ = replicate retries false ∨
       ∃ k, (k < retries)%nat ∧ attempts Δ = replicate k false ++ [true]
     else Δ = []) ∧
    now w <= now w' <= now w + 500 * Z.of_nat retries * (Z.of_nat retries - 1).
Proof.
  destruct (sink_bounds timestamp from message senderType retries w)
    as (w' & Δ & Hrun & Hs & Ht & Hout & _ & Hatt & Hnow).
  exists w', Δ. repeat (split; [done|]).
  unfold backoff_left in Hnow. lia.
Qed.

(** [handleMessage] on a message that is not skipped, with the world the
    sink leaves made explicit. *)
Lemma handleMessage_after_log msg m w w1 :
  message msg = Some m → fromMe (key msg) = false →
  appendChatLog (now w) (remoteJid (key msg)) (messageText_of m) "user" 3 w
    = (Normal tt, w1) →
  handleMessage msg w =
    match conversations w1 !! remoteJid (key msg) with
    | None => handleMessage_new (remoteJid (key msg)) w1
    | Some l =>
        match heap w1 !! l with
        | Some c =>
            handleMessage_known (remoteJid (key msg)) (messageText_of m) l c w1
        | None => (Throw TypeError, w1)
        end
    end.
Proof.
  intros Hm Hfrom Hrun.
  unfold handleMessage. rewrite Hm, Hfrom.
  unfold getCurrentTimestamp. rewrite gets_run. cbv beta.
  rewrite (bind_run _ _ _ _ _ Hrun). cbv beta.
  unfold conversations_has. rewrite gets_run. cbv beta.
  destruct (conversations w1 !! remoteJid (key msg)) as [l|] eqn:Hl.
  - rewrite bool_decide_true by eauto. cbn [negb].
    unfold conversations_get. rewrite gets_run. cbv beta. rewrite Hl.
    unfold deref at 1. unfold mbind at 1, JS_bind at 1.
    destruct (heap w1 !! l); reflexivity.
  - rewrite bool_decide_false by (intros [? ?]; done). reflexivity.
Qed.

(** In a reachable world every message that is not skipped costs
    between one and three remote appends, and its handling waits at most
    3000 ms in back-off, however the spreadsheet behaves. *)
Lemma logged_uninterrupted w msg m :
  store_ok w → sheets w = true →
  message msg = Some m → fromMe (key msg) = false →
  ∃ w' Δ,
    handleMessage msg w = (Normal tt, w') ∧
    trace w' = trace w ++ Δ ∧
    (1 <= length (attempts Δ) <= 3)%nat ∧
    now w <= now w' <= now w + 3000.
Proof.
  intros [Hmap Hheap] Hsheets Hm Hfrom.
  destruct (sink_bounds (now w) (remoteJid (key msg)) (messageText_of m)
              "user" 3 w)
    as (w1 & Δ & Hrun & Hs & Ht & _ & _ & Hatt & Hnow).
  rewrite Hsheets in Hatt.
  rewrite (handleMessage_after_log msg m w w1 Hm Hfrom Hrun).
  assert (1 <= length (attempts Δ) <= 3)%nat as Hlen.
  { destruct Hatt as [-> | (k & Hk & ->)].
    - rewrite length_replicate. lia.
    - rewrite length_app, length_replicate. cbn. lia. }
  assert (∃ w' jid l c' replies,
            match conversations w1 !! remoteJid (key msg) with
            | None => handleMessage_new (remoteJid (key msg)) w1
            | Some l =>
                match heap w1 !! l with
                | Some c =>
                    handleMessage_known (remoteJid (key msg))
                      (messageText_of m) l c w1
                | None => (Throw TypeError, w1)
                end
            end = (Normal tt, w') ∧ handled jid l c' replies w1 w')
    as (w' & jid & l & c' & replies & -> & Hh).
  { destruct Hs as (Hcs1 & Hh1 & _). rewrite Hcs1.
    destruct (conversations w !! remoteJid (key msg)) as [l|] eqn:Hl.
    - destruct (Hmap _ _ Hl) as [c Hc]. rewrite Hh1, Hc.
      destruct (handleMessage_known_handled (remoteJid (key msg))
                  (messageText_of m) l c w1)
        as (w' & c' & replies & Hrun' & Hh & _);
        [by rewrite Hh1 | by eapply Hheap |].
      by exists w', (remoteJid (key msg)), l, c', replies.
    - destruct (handleMessage_new_run (remoteJid (key msg)) w1)
        as (w' & Hrun' & _ & _ & Hh).
      by eexists w', _, _, _, _. }
  destruct Hh as (_ & _ & _ & Hnow' & _ & Δ' & Ht' & _ & _ & Hatt').
  exists w', (AppendChatLog (mkRow (now w) (remoteJid (key msg))
                               (messageText_of m) "user") :: Δ ++ Δ').
  split; [done|]. split; [by rewrite Ht', Ht, <- app_assoc|].
  split.
  - unfold attempts in *. cbn. rewrite omap_app, Hatt', app_nil_r. exact Hlen.
  - unfold backoff_left in Hnow. lia.
Qed.

(** ** Sending *)

(** X15. [sendMessage] never throws.  It hands the transport one
    message, the text followed by the bot signature when [isBot] is set
    and the bare text otherwise; if the transport rejects it, one error
    is logged and the message is not sent again.  Conversations and
    timers are untouched either way. *)
Theorem X15_sendMessage_is_best_effort (jid message : string) (isBot : bool)
    (w : World) :
  let ok := send_resolves (sends w) in
  let text := if isBot then message +:+ bot_signature else message in
  let w' := after (sendMessage jid message isBot) w in
  (sendMessage jid message isBot w).1 = Normal tt ∧
  trace w' =
    trace w ++ SockSend jid text ok ::
    (if ok then [] else [LoggerError "Failed to send message:"]) ∧
  sends w' = S (sends w) ∧
  conversations w' = conversations w ∧ heap w' = heap w ∧
  timers w' = timers w ∧ now w' = now w.
Proof.
  intros ok text w'. subst ok text w'. unfold after. rewrite sendMessage_run.
  destruct (send_resolves (sends w)); cbn.
  - by repeat split.
  - rewrite <- app_assoc. by repeat split.
Qed.

(** ** The text of a menu *)

Lemma string_app_cons x (a b : string) :
  String x a +:+ b = String x (a +:+ b).
Proof. reflexivity. Qed.

Lemma string_app_assoc (a b c : string) : (a +:+ b) +:+ c = a +:+ b +:+ c.
Proof.
  induction a as [|x a IH]; [done|]. by rewrite !string_app_cons, IH.
Qed.

Lemma string_app_nil_r (a : string) : a +:+ EmptyString = a.
Proof. induction a as [|x a IH]; [done|]. by rewrite string_app_cons, IH. Qed.

Lemma string_rev_app_spec (s acc : string) :
  String.rev_app s acc = String.rev s +:+ acc.
Proof.
  revert acc. induction s as [|x s IH]; intros acc; [done|].
  change (String.rev_app s (String x acc)
          = String.rev_app s (String x EmptyString) +:+ acc).
  rewrite (IH (String x acc)), (IH (String x EmptyString)).
  by rewrite string_app_assoc.
Qed.

Lemma string_rev_cons x (s : string) :
  String.rev (String x s) = String.rev s +:+ String x EmptyString.
Proof. apply (string_rev_app_spec s (String x EmptyString)). Qed.

Lemma string_rev_app (a b : string) :
  String.rev (a +:+ b) = String.rev b +:+ String.rev a.
Proof.
  induction a as [|x a IH]; [by rewrite string_app_nil_r|].
  by rewrite string_app_cons, !string_rev_cons, IH, string_app_assoc.
Qed.

Lemma string_rev_involutive (s : string) : String.rev (String.rev s) = s.
Proof.
  induction s as [|x s IH]; [done|].
  by rewrite string_rev_cons, string_rev_app, IH.
Qed.

Lemma trimStart_clean s : starts_clean s = true → trimStart s = s.
Proof. destruct s as [|c s]; [done|]. cbn. by intros ->%negb_true_iff. Qed.

Lemma trimEnd_clean s : ends_clean s = true → trimEnd s = s.
Proof.
  unfold ends_clean, trimEnd. intros Hs.
  rewrite trimStart_clean; [apply string_rev_involutive|].
  by destruct (String.rev s).
Qed.

Lemma trimEnd_line_feed s : trimEnd (s +:+ LF) = trimEnd s.
Proof. unfold trimEnd. by rewrite string_rev_app. Qed.

Lemma ends_clean_app a b : ends_clean b = true → ends_clean (a +:+ b) = true.
Proof.
  unfold ends_clean. rewrite string_rev_app.
  by destruct (String.rev b).
Qed.

Lemma formatMenu_forEach_spec prefix index items :
  formatMenu_forEach (prefix +:+ LF) index items
    = (prefix +:+ numbered index items) +:+ LF.
Proof.
  revert prefix index. induction items as [|item items IH]; intros prefix index.
  - cbn. by rewrite string_app_nil_r.
  - cbn [formatMenu_forEach numbered].
    replace ((prefix +:+ LF) +:+ pretty (index + 1)%nat +:+ ". " +:+ item +:+ LF)
      with ((prefix +:+ LF +:+ pretty (index + 1)%nat +:+ ". " +:+ item) +:+ LF)
      by (by rewrite !string_app_assoc).
    rewrite IH. by rewrite !string_app_assoc.
Qed.

Lemma numbered_ends_clean index items :
  items ≠ [] →
  (∀ item, last items = Some item → ends_clean item = true) →
  ends_clean (numbered index items) = true.
Proof.
  revert index. induction items as [|item items IH]; intros index Hne Hlast;
    [done|].
  cbn [numbered]. destruct items as [|item' items].
  - cbn [numbered]. rewrite string_app_nil_r.
    rewrite <- !string_app_assoc. apply ends_clean_app. by apply Hlast.
  - rewrite <- !string_app_assoc. apply ends_clean_app. apply IH; [done|].
    intros it Hit. by apply Hlast.
Qed.

(** The text of a menu.  For a title that does not begin with
    white space and items the last of which is not empty and does not
    end with white space, [formatMenu] gives the title, a colon, and one
    line per item, numbered from 1 in the order of the list; the text
    does not end with a line feed.  With no items it is the title and
    the colon. *)
Lemma formatMenu_text_clean title items :
  starts_clean title = true →
  (∀ item, last items = Some item → ends_clean item = true) →
  formatMenu title items = title +:+ ":" +:+ numbered 0 items.
Proof.
  intros Htitle Hlast. unfold formatMenu, trim.
  replace (title +:+ ":" +:+ LF) with ((title +:+ ":") +:+ LF)
    by apply string_app_assoc.
  rewrite formatMenu_forEach_spec.
  rewrite trimStart_clean by (by destruct title).
  rewrite trimEnd_line_feed, trimEnd_clean; [apply string_app_assoc|].
  destruct items as [|item items].
  - cbn [numbered]. rewrite string_app_nil_r. by apply ends_clean_app.
  - by apply ends_clean_app, numbered_ends_clean.
Qed.

(** ** The text of a message *)

(** X17. The text [handleMessage] works on is the [conversation] field
    when that is a non-empty string, and otherwise the [text] of the
    extended message; a field that is missing counts as the empty
    string, so a message with neither carries the empty text. *)
Theorem X17_message_text m :
  let plain := default EmptyString (conversation m) in
  let extended :=
    default EmptyString (extendedTextMessage m ≫= text) in
  messageText_of m = if decide (plain = EmptyString) then extended else plain.
Proof.
  unfold messageText_of, truthy.
  destruct (conversation m) as [[|x s]|];
    destruct (extendedTextMessage m) as [[[[|y s']|]]|]; reflexivity.
Qed.

(** ** Starting over *)



(** ** Handoff over many messages *)


(** ** One conversation per jid *)




End Coverage.

(** * Start-up *)

Section Boot.
Context `{Startup}.

(** X21. [authorizeGoogle] returns only with the spreadsheet client
    set, and it returns exactly when the key file exists and the
    authorisation completes; then nothing else changes and nothing is
    logged.  In every other case the process exits with status 1 after
    one logged error, the client still unset. *)
Theorem X21_authorizeGoogle_sets_the_client_or_exits w :
  let p := authorizeGoogle w in
  (p.1 = Returned ↔
   key_file_exists = true ∧ authorization_completes = true) ∧
  (p.1 = Returned ∧ p.2 = set_sheets true w ∨
   p.1 = Exited 1 ∧ sheets p.2 = sheets w ∧
   ∃ text, trace p.2 = trace w ++ [LoggerError text]).
Proof.
  unfold authorizeGoogle.
  destruct key_file_exists, authorization_completes; cbn.
  - split; [done | by left].
  - split; [split; [done | intros [_ [=]]] | right; eauto].
  - split; [split; [done | intros [[=] _]] | right; eauto].
  - split; [split; [done | intros [[=] _]] | right; eauto].
Qed.

End Boot.

(** * Further concrete runs *)

Lemma world_greeted_reachable : reachable (H := reliable_host) world_greeted.
Proof.
  exact (reachable_turn initial_world
           (MessagesUpsert (mkUpsert (Some [text_message "a" "hi"]) "notify"))
           _ reachable_initial (turn_upsert _ _)).
Qed.


Lemma X10_witness :
  on_messages_upsert (H := reliable_host)
    (mkUpsert (Some [mkWAMessage (mkKey "a" true)
                       (Some (mkMessage (Some "1") None))]) "notify")
    world_greeted
  = (Normal tt, world_greeted).
Proof.
  apply (X10_ignored_events_change_nothing (H := reliable_host)).
  right. right. eexists _, _. split; [reflexivity|]. right. reflexivity.
Defined.


(** * The program in the event loop *)

(** ** A call whose awaits take time, next to its uninterrupted run *)

(** A call that is resumed after each of its [await]s, with nothing
    else in between, goes through the same steps as its uninterrupted
    run; the clock is later, and so are the timers it arms.  [n] is the
    first handle that was free when the call began: timers with a
    smaller handle are older than the call. *)
Section Drift.
Context `{Host}.
Variable n : nat.

Lemma later_refl ts : later n 0 ts ts.
Proof.
  intros id. destruct (ts !! id); [|done]. split; [done|]. split; [done|lia].
Qed.

Lemma later_mono gap gap' ts0 ts :
  gap ≤ gap' → later n gap ts0 ts → later n gap' ts0 ts.
Proof.
  intros Hle Hl id. specialize (Hl id).
  destruct (ts0 !! id), (ts !! id); try done.
  destruct Hl as (? & ? & ?). split; [done|]. split; [done | lia].
Qed.

Lemma drift_refl w : (n ≤ next_timer w)%nat → drift n w w.
Proof.
  intros Hn. repeat split; try done; try lia.
  rewrite Z.sub_diag. apply later_refl.
Qed.

Lemma later_delete gap id ts0 ts :
  later n gap ts0 ts → later n gap (delete id ts0) (delete id ts).
Proof.
  intros Hl j. destruct (decide (j = id)) as [->|Hne].
  - by rewrite !lookup_delete_eq.
  - rewrite !lookup_delete_ne by done. apply Hl.
Qed.

Lemma later_insert gap id t0 t ts0 ts :
  (n ≤ id)%nat →
  timer_jid t = timer_jid t0 →
  timer_due t0 ≤ timer_due t ≤ timer_due t0 + gap →
  later n gap ts0 ts → later n gap (<[id := t0]> ts0) (<[id := t]> ts).
Proof.
  intros Hid Hj Hd Hl j. destruct (decide (j = id)) as [->|Hne].
  - rewrite !lookup_insert_eq. split; [lia | done].
  - rewrite !lookup_insert_ne by done. apply Hl.
Qed.

(** *** Driving a call through its awaits *)
Lemma drive_bind {A B} (r : Run A) (f : A → Co B) ds :
  drive (Run_bind r f) ds =
    match drive r ds with
    | Some (Normal a, w1, ds1) => drive (f a w1) ds1
    | Some (Throw e, w1, ds1) => Some (Throw e, w1, ds1)
    | None => None
    end.
Proof.
  revert ds. induction r as [c w | request w k IH]; intros ds; cbn.
  - by destruct c.
  - destruct ds as [|d ds]; [done|]. destruct (admissible d request); [apply IH | done].
Qed.

Lemma drive_catch {A} (r : Run A) (h : Thrown → Co A) ds :
  drive (Run_catch r h) ds =
    match drive r ds with
    | Some (Normal a, w1, ds1) => Some (Normal a, w1, ds1)
    | Some (Throw e, w1, ds1) => drive (h e w1) ds1
    | None => None
    end.
Proof.
  revert ds. induction r as [c w | request w k IH]; intros ds; cbn.
  - by destruct c.
  - destruct ds as [|d ds]; [done|]. destruct (admissible d request); [apply IH | done].
Qed.

(** *** The steps of the program, one by one *)
Lemma refines_ret {A} (a : A) : refines n (mret a) (mret a).
Proof. intros w0 w Hd ds c w' ds' [= <- <- _]. done. Qed.

Lemma refines_bind {A B} (m : Co A) m0 (f : A → Co B) f0 :
  refines n m m0 → (∀ a, refines n (f a) (f0 a)) → refines n (m ≫= f) (m0 ≫= f0).
Proof.
  intros Hm Hf w0 w Hd ds c w' ds'. unfold mbind, Co_bind, JS_bind.
  rewrite drive_bind.
  destruct (drive (m w) ds) as [[[c1 w1] ds1]|] eqn:E; [|done].
  apply (Hm w0 w Hd) in E as [-> Hd1].
  destruct (m0 w0) as [[a|e] w01]; cbn in *.
  - apply (Hf a _ _ Hd1).
  - by intros [= <- <- _].
Qed.

Lemma refines_catch {A} (m : Co A) m0 h h0 :
  refines n m m0 → (∀ e, refines n (h e) (h0 e)) →
  refines n (Async.try_catch m h) (try_catch m0 h0).
Proof.
  intros Hm Hh w0 w Hd ds c w' ds'. unfold Async.try_catch, try_catch.
  rewrite drive_catch.
  destruct (drive (m w) ds) as [[[c1 w1] ds1]|] eqn:E; [|done].
  apply (Hm w0 w Hd) in E as [-> Hd1].
  destruct (m0 w0) as [[a|e] w01]; cbn in *.
  - by intros [= <- <- _].
  - apply (Hh e _ _ Hd1).
Qed.

Lemma refines_sync {A} (m0 : JS A) : blind n m0 → refines n (sync m0) m0.
Proof.
  intros Hb w0 w Hd ds c w' ds'. unfold sync.
  destruct (Hb w0 w Hd) as [Hc Hd']. destruct (m0 w) as [c1 w1]. cbn in *.
  by intros [= <- <- _].
Qed.

Lemma blind_ret {A} (a : A) : blind n (mret a).
Proof. by intros w0 w Hd. Qed.

Lemma blind_throw {A} e : blind n (throw (A := A) e).
Proof. by intros w0 w Hd. Qed.

Lemma blind_bind {A B} (m : JS A) (f : A → JS B) :
  blind n m → (∀ a, blind n (f a)) → blind n (m ≫= f).
Proof.
  intros Hm Hf w0 w Hd. unfold mbind, JS_bind.
  destruct (Hm w0 w Hd) as [Hc Hd1].
  destruct (m w) as [c1 w1], (m w0) as [c0 w01]. cbn in *. subst c1.
  destruct c0; [by apply Hf | done].
Qed.

Lemma blind_gets {A} (g : World → A) :
  (∀ w0 w, drift n w0 w → g w = g w0) → blind n (gets g).
Proof. intros Hg w0 w Hd. cbn. by rewrite (Hg w0 w Hd). Qed.

Lemma blind_modify g :
  (∀ w0 w, drift n w0 w → drift n (g w0) (g w)) → blind n (modify g).
Proof. intros Hg w0 w Hd. cbn. split; [done | by apply Hg]. Qed.

Lemma drift_emit e w0 w : drift n w0 w → drift n (emit e w0) (emit e w).
Proof. intros (?&?&?&?&?&?&?&?&?&?). repeat split; cbn; try done. congruence. Qed.

Lemma drift_set_heap f w0 w : drift n w0 w → drift n (set_heap f w0) (set_heap f w).
Proof. intros (?&?&?&?&?&?&?&?&?&?). repeat split; cbn; try done. congruence. Qed.

Lemma drift_set_conversations f w0 w :
  drift n w0 w → drift n (set_conversations f w0) (set_conversations f w).
Proof. intros (?&?&?&?&?&?&?&?&?&?). repeat split; cbn; try done. congruence. Qed.

Lemma blind_logger_error text : blind n (logger_error text).
Proof. apply blind_modify. intros. by apply drift_emit. Qed.

Lemma blind_deref o : blind n (deref o).
Proof.
  intros w0 w Hd. unfold deref. destruct o as [l|]; [|done].
  pose proof Hd as (_ & Hh & _). rewrite Hh.
  by destruct (heap w0 !! l).
Qed.


Lemma blind_read l : blind n (read l).
Proof.
  unfold read. apply blind_bind; [apply blind_deref|].
  intros [? c]. apply blind_ret.
Qed.

Lemma blind_write l f : blind n (write l f).
Proof.
  unfold write. apply blind_bind; [apply blind_read|].
  intros c. apply blind_modify. intros. by apply drift_set_heap.
Qed.

Lemma blind_conversations_has jid : blind n (conversations_has jid).
Proof. apply blind_gets. by intros w0 w (-> & _). Qed.

Lemma blind_conversations_get jid : blind n (conversations_get jid).
Proof. apply blind_gets. by intros w0 w (-> & _). Qed.

Lemma blind_conversations_set jid l : blind n (conversations_set jid l).
Proof. apply blind_modify. intros. by apply drift_set_conversations. Qed.

Lemma blind_conversations_delete jid : blind n (conversations_delete jid).
Proof. apply blind_modify. intros. by apply drift_set_conversations. Qed.

Lemma blind_new_Conversation : blind n new_Conversation.
Proof.
  intros w0 w Hd. unfold new_Conversation. cbn.
  pose proof Hd as (_ & -> & _). split; [done|]. by apply drift_set_heap.
Qed.

Lemma blind_setTimeout jid ms : blind n (setTimeout jid ms).
Proof.
  intros w0 w (?&?&?&Hn&?&?&?&?&?&Hfirst). unfold setTimeout. cbn. rewrite Hn.
  split; [done|]. repeat split; cbn; try done.
  - apply later_insert; cbn; [done | done | lia | done].
  - lia.
Qed.

Lemma blind_clearTimeout id : blind n (clearTimeout id).
Proof.
  apply blind_modify. intros w0 w (?&?&?&?&?&?&?&?&?&?).
  repeat split; cbn; try done. by apply later_delete.
Qed.

Lemma blind_resetTimeout this jid : blind n (resetTimeout this jid).
Proof.
  unfold resetTimeout. apply blind_bind; [apply blind_read|]. intros c.
  apply blind_bind.
  { destruct (timeout c); [apply blind_clearTimeout | apply blind_ret]. }
  intros _. apply blind_bind; [apply blind_setTimeout|].
  intros t. apply blind_write.
Qed.

Lemma blind_emit e : blind n (modify (emit e)).
Proof. apply blind_modify. intros. by apply drift_emit. Qed.

Lemma blind_sheets : blind n (gets sheets).
Proof. apply blind_gets. by intros w0 w (_&_&_&_&->&_). Qed.

(** The remote calls and the back-off: the time they take only moves
    the clock. *)
Lemma refines_sheets_values_append values :
  refines n (Async.sheets_values_append values) (sheets_values_append values).
Proof.
  intros w0 w Hd ds c w' ds'.
  unfold Async.sheets_values_append, sheets_values_append, await.
  pose proof Hd as (?&?&?&?&?&?&Ha&?&?&?). rewrite Ha. cbn.
  destruct ds as [|d ds]; [done|].
  destruct (admissible d _) eqn:Ead; [|done]. intros [= <- <- _].
  split; [done|].
  apply andb_prop in Ead as [?%bool_decide_eq_true _].
  repeat split; cbn; try done; [|lia|congruence].
  eapply later_mono; [|eassumption]. lia.
Qed.

Lemma refines_sock_sendMessage jid text :
  refines n (Async.sock_sendMessage jid text) (sock_sendMessage jid text).
Proof.
  intros w0 w Hd ds c w' ds'.
  unfold Async.sock_sendMessage, sock_sendMessage, await.
  pose proof Hd as (?&?&?&?&?&?&?&Hs&?&?). rewrite Hs. cbn.
  destruct ds as [|d ds]; [done|].
  destruct (admissible d _) eqn:Ead; [|done]. intros [= <- <- _].
  split; [done|].
  apply andb_prop in Ead as [?%bool_decide_eq_true _].
  repeat split; cbn; try done; [|lia|congruence].
  eapply later_mono; [|eassumption]. lia.
Qed.

Lemma refines_sleep ms : refines n (Async.sleep ms) (sleep ms).
Proof.
  intros w0 w Hd ds c w' ds'. unfold Async.sleep, sleep, await, modify. cbn.
  destruct ds as [|d ds]; [done|].
  destruct (admissible d _) eqn:Ead; [|done]. intros [= <- <- _].
  split; [done|].
  apply andb_prop in Ead as [_ ?%bool_decide_eq_true]. cbn in *.
  destruct Hd as (?&?&?&?&?&?&?&?&?&?).
  repeat split; cbn; try done; [|lia|congruence].
  eapply later_mono; [|eassumption]. lia.
Qed.

Lemma refines_sendMessage jid message isBot :
  refines n (Async.sendMessage jid message isBot) (sendMessage jid message isBot).
Proof.
  apply refines_catch; [apply refines_sock_sendMessage|].
  intros e. apply refines_sync, blind_logger_error.
Qed.

Lemma refines_appendChatLog_for todo attempt retries values :
  refines n (Async.appendChatLog_for todo attempt retries values)
    (appendChatLog_for todo attempt retries values).
Proof.
  revert attempt. induction todo as [|todo IH]; intros attempt; cbn.
  - apply refines_ret.
  - apply refines_bind.
    + apply refines_catch.
      * apply refines_bind; [apply refines_sheets_values_append|].
        intros; apply refines_ret.
      * intros e. apply refines_bind; [apply refines_sync, blind_logger_error|].
        intros _. apply refines_bind; [|intros; apply refines_ret].
        destruct (attempt =? retries)%nat;
          [apply refines_sync, blind_logger_error | apply refines_sleep].
    + intros [|]; [apply refines_ret | apply IH].
Qed.

Lemma refines_appendChatLog timestamp from message senderType retries :
  refines n (Async.appendChatLog timestamp from message senderType retries)
    (appendChatLog timestamp from message senderType retries).
Proof.
  unfold Async.appendChatLog, appendChatLog.
  apply refines_bind; [apply refines_sync, blind_emit|]. intros _.
  apply refines_bind; [apply refines_sync, blind_sheets|]. intros client.
  destruct (negb client); [apply refines_ret | apply refines_appendChatLog_for].
Qed.


Ltac refines_go :=
  repeat first
    [ apply refines_ret
    | apply refines_sendMessage
    | apply refines_sync
    | apply blind_write | apply blind_resetTimeout
    | apply blind_conversations_delete | apply blind_conversations_set
    | apply blind_conversations_get | apply blind_conversations_has
    | apply blind_new_Conversation | apply blind_deref
    | apply refines_bind; [|intros ?]
    | match goal with |- refines n (let '(_, _) := ?p in _) _ => destruct p end ].

(** A [switch] over the same labels. *)
Lemma refines_switch {A} x (cases : list (string * Co A))
    (cases0 : list (string * JS A)) d d0 :
  Forall2 (λ p p0, p.1 = p0.1 ∧ refines n p.2 p0.2) cases cases0 →
  refines n d d0 → refines n (switch x cases d) (switch x cases0 d0).
Proof.
  intros Hc Hd. induction Hc as [|[k b] [k0 b0] cases cases0 [Hk Hb] _ IH];
    cbn [switch]; [done|].
  cbn in Hk, Hb. subst k0. by destruct (String.eqb x k).
Qed.

Ltac refines_switch :=
  apply refines_switch;
  [ repeat (constructor; [split; [reflexivity | cbn [snd]; refines_go]|]);
    constructor
  | refines_go ].

Lemma refines_handleMainMenu jid text conv :
  refines n (Async.handleMainMenu jid text conv) (handleMainMenu jid text conv).
Proof. apply refines_bind; [refines_switch | intros; refines_go]. Qed.

Lemma refines_handleInfoMenu jid text conv :
  refines n (Async.handleInfoMenu jid text conv) (handleInfoMenu jid text conv).
Proof. apply refines_bind; [refines_switch | intros; refines_go]. Qed.

Lemma refines_handlePdrbMenu jid text conv :
  refines n (Async.handlePdrbMenu jid text conv) (handlePdrbMenu jid text conv).
Proof. apply refines_bind; [refines_switch | intros; refines_go]. Qed.

Lemma refines_handleDummyMenu jid text conv :
  refines n (Async.handleDummyMenu jid text conv) (handleDummyMenu jid text conv).
Proof. apply refines_bind; [refines_switch | intros; refines_go]. Qed.

Lemma refines_handleDummySubmenu1 jid text conv :
  refines n (Async.handleDummySubmenu1 jid text conv)
    (handleDummySubmenu1 jid text conv).
Proof. apply refines_bind; [refines_switch | intros; refines_go]. Qed.

Lemma refines_handleProdukMenu jid text conv :
  refines n (Async.handleProdukMenu jid text conv)
    (handleProdukMenu jid text conv).
Proof. apply refines_bind; [refines_switch | intros; refines_go]. Qed.

Lemma refines_handleProduk1Menu jid text conv :
  refines n (Async.handleProduk1Menu jid text conv)
    (handleProduk1Menu jid text conv).
Proof. apply refines_bind; [refines_switch | intros; refines_go]. Qed.

Lemma refines_handleMessage_logged jid text :
  refines n (Async.handleMessage_logged jid text)
    (known ← conversations_has jid;
     if negb known then handleMessage_new jid
     else o ← conversations_get jid;
          '(conv, c) ← deref o;
          handleMessage_known jid text conv c).
Proof.
  unfold Async.handleMessage_logged.
  apply refines_bind; [refines_go|]. intros known.
  destruct (negb known).
  - unfold handleMessage_new. refines_go.
  - apply refines_bind; [refines_go|]. intros o.
    apply refines_bind; [refines_go|]. intros [conv c].
    unfold handleMessage_known. destruct (csActive c).
    + destruct (String.eqb _ _); refines_go.
    + apply refines_switch; [|refines_go].
      repeat (constructor; [split; [reflexivity | cbn [snd]]|]);
        [ apply refines_handleMainMenu | apply refines_handleInfoMenu
        | apply refines_handlePdrbMenu | apply refines_handleDummyMenu
        | apply refines_handleDummySubmenu1 | apply refines_handleProdukMenu
        | apply refines_handleProduk1Menu | constructor ].
Qed.


End Drift.

Section Interleaving.
Context `{Host}.

(** [handleMessage] reads the clock once, before its first [await],
    where both runs are in the same world. *)
Lemma tracks_handleMessage msg w :
  tracks (next_timer w) (Async.handleMessage msg w) (handleMessage msg w).
Proof.
  unfold Async.handleMessage, handleMessage.
  destruct (message msg) as [m|]; [|by apply refines_ret, drift_refl].
  destruct (fromMe (key msg)); [by apply refines_ret, drift_refl|].
  cbv zeta.
  assert (∀ ts,
    refines (next_timer w)
      (Async.appendChatLog ts (remoteJid (key msg)) (messageText_of m) "user" 3 ;;
       Async.handleMessage_logged (remoteJid (key msg)) (messageText_of m))
      (appendChatLog ts (remoteJid (key msg)) (messageText_of m) "user" 3 ;;
       known ← conversations_has (remoteJid (key msg));
       if negb known then handleMessage_new (remoteJid (key msg))
       else o ← conversations_get (remoteJid (key msg));
            '(conv, c) ← deref o;
            handleMessage_known (remoteJid (key msg)) (messageText_of m) conv c))
    as Hr.
  { intros ts. apply refines_bind; [apply refines_appendChatLog|].
    intros _. apply refines_handleMessage_logged. }
  exact (Hr (now w) w w (drift_refl _ w (le_n _))).
Qed.

Lemma tracks_on_messages_upsert m w :
  tracks (next_timer w) (Async.on_messages_upsert m w) (on_messages_upsert m w).
Proof.
  unfold Async.on_messages_upsert, on_messages_upsert.
  destruct (messages m) as [batch|]; [|by apply refines_ret, drift_refl].
  destruct (negb _); [by apply refines_ret, drift_refl|].
  destruct (batch !! 0%nat) as [msg|]; [apply tracks_handleMessage|].
  apply refines_sync; [apply blind_throw | by apply drift_refl].
Qed.

Lemma delete_last {A} (l : list A) (x : A) : delete (length l) (l ++ [x]) = l.
Proof. induction l as [|y l IH]; [done|]. cbn. f_equal. exact IH. Qed.

(** *** From the loop to the call *)

(** The loop, following [alone], drives the call it has just suspended
    through its awaits. *)
Lemma run_alone suspended failures r ds L' :
  run (alone (length suspended) ds) (park r suspended failures) = Some L' →
  pool L' = suspended →
  ∃ c, drive r ds = Some (c, world L', []) ∧
       unhandled L' = failures ++ thrown c.
Proof.
  revert r. induction ds as [|d ds IH]; intros r Hrun Hpool.
  - cbn in Hrun. injection Hrun as <-. destruct r as [[a|e] w | request w k]; cbn in *.
    + exists (Normal a). by rewrite app_nil_r.
    + by exists (Throw e).
    + apply (f_equal length) in Hpool. rewrite length_app in Hpool. cbn in Hpool. lia.
  - change (alone (length suspended) (d :: ds))
      with (Tick d :: Settle (length suspended) :: alone (length suspended) ds)
      in Hrun.
    destruct r as [[a|e] w | request w k].
    + cbn in Hrun. destruct (may_idle d _); [|done]. cbn in Hrun.
      by rewrite lookup_ge_None_2 in Hrun.
    + cbn in Hrun. destruct (may_idle d _); [|done]. cbn in Hrun.
      by rewrite lookup_ge_None_2 in Hrun.
    + cbn [run park step world pool unhandled mbind option_bind] in Hrun.
      destruct (may_idle d _) eqn:Eidle; [|done].
      cbn [run park step world pool unhandled mbind option_bind] in Hrun.
      rewrite lookup_app_r, Nat.sub_diag in Hrun by done.
      cbn [lookup list_lookup wake_at resume] in Hrun.
      destruct (bool_decide _) eqn:Ewake in Hrun; [|done].
      cbn [mbind option_bind] in Hrun. rewrite delete_last in Hrun.
      destruct (IH _ Hrun Hpool) as (c & Hdrive & Hun).
      exists c. split; [|done]. cbn [drive].
      apply bool_decide_eq_true in Ewake. cbn [now set_now] in Ewake.
      apply andb_prop in Eidle as [[Hd%bool_decide_eq_true _]%andb_prop _].
      unfold admissible. rewrite !bool_decide_true by lia. exact Hdrive.
Qed.

(** An event that is delivered and whose listener then runs alone. *)
Lemma arrival_alone suspended failures w m ds L' :
  run (Arrive m :: alone (length suspended) ds) (mkLoop w suspended failures)
    = Some L' →
  pool L' = suspended →
  drift (next_timer w) (on_messages_upsert m w).2 (world L') ∧
  unhandled L' = failures ++ thrown (on_messages_upsert m w).1.
Proof.
  intros Hrun Hpool. cbn [run step world pool unhandled mbind option_bind] in Hrun.
  destruct (run_alone _ _ _ _ _ Hrun Hpool) as (c & Hdrive & Hun).
  apply tracks_on_messages_upsert in Hdrive as [-> Hd]. done.
Qed.


(** *** The texts of the menus *)

Lemma formatMenu_main : formatMenu "Menu" MENUS.main = Rendered.main.
Proof. reflexivity. Qed.
Lemma formatMenu_info : formatMenu "Menu Info" MENUS.info = Rendered.info.
Proof. reflexivity. Qed.
Lemma formatMenu_pdrb : formatMenu "Menu PDRB" MENUS.pdrb = Rendered.pdrb.
Proof. reflexivity. Qed.
Lemma formatMenu_dummyMenu :
  formatMenu "Dummy Menu" MENUS.dummyMenu = Rendered.dummyMenu.
Proof. reflexivity. Qed.
Lemma formatMenu_dummySubmenu1 :
  formatMenu "Dummy Submenu 1" MENUS.dummySubmenu1 = Rendered.dummySubmenu1.
Proof. reflexivity. Qed.
Lemma formatMenu_produk : formatMenu "Produk" MENUS.produk = Rendered.produk.
Proof. reflexivity. Qed.
Lemma formatMenu_produk1 :
  formatMenu "Detail Produk 1" MENUS.produk1 = Rendered.produk1.
Proof. reflexivity. Qed.

Ltac render H :=
  rewrite ?formatMenu_main, ?formatMenu_info, ?formatMenu_pdrb,
    ?formatMenu_dummyMenu, ?formatMenu_dummySubmenu1, ?formatMenu_produk,
    ?formatMenu_produk1 in H.

(** *** A message handled alone *)

Lemma drift_conversation_of n w0 w jid :
  drift n w0 w → conversation_of w jid = conversation_of w0 jid.
Proof. intros (Hc & Hh & _). unfold conversation_of. by rewrite Hc, Hh. Qed.

(** A message that is delivered and handled alone, next to its
    uninterrupted run. *)
Lemma message_alone L msg rest waits L' w0 :
  run (Arrive (notify (msg :: rest)) :: alone (length (pool L)) waits) L
    = Some L' →
  pool L' = pool L →
  handleMessage msg (world L) = (Normal tt, w0) →
  drift (next_timer (world L)) w0 (world L') ∧ unhandled L' = unhandled L.
Proof.
  intros Hrun Hpool Hrun0. destruct L as [w suspended failures].
  cbn [world pool unhandled] in *.
  destruct (arrival_alone _ _ _ _ _ _ Hrun Hpool) as [Hd Hun].
  change (on_messages_upsert (notify (msg :: rest)) w)
    with (handleMessage msg w) in Hd, Hun.
  rewrite Hrun0 in Hd, Hun. cbn in Hd, Hun. by rewrite app_nil_r in Hun.
Qed.

Ltac transfer Hd :=
  rewrite ?(drift_conversation_of _ _ _ _ Hd);
  let Hcv := fresh in let Htr := fresh in
  pose proof Hd as (Hcv & _ & _ & _ & _ & _ & _ & _ & Htr & _);
  rewrite ?Hcv, ?Htr; clear Hcv Htr.

(** ** The menu state machine *)

(** In the theorems below a message is handled alone: the loop [L]
    delivers it, then only idles and resumes its handler, until the
    handler is done and the suspended calls are those of [L] again.
    How long each [await] takes is arbitrary ([waits]); what the remote
    calls answer is the host's choice.  A run in which a timer falls
    due before the handler is done is not of this kind: the loop does
    not idle past a timer. *)




(** ** Human handoff *)


(** ** First contact *)





(** *** The other menus *)

(** Brings a row of a handler's table from its uninterrupted run to a
    run of the loop in which the message is handled alone. *)
Ltac alone_table lemma :=
  intros Hm Hfrom jid w Hc Hst Hcs Hrun Hpool w' moves_to answers;
  pose proof (lemma _ w _ _ _ Hm Hfrom Hc Hst Hcs) as Hold;
  cbv zeta in Hold; destruct Hold as [Hnormal Hsw];
  unfold after in Hsw;
  destruct (handleMessage _ w) as [c0 w0] eqn:Hrun0;
  cbn [fst snd] in Hnormal, Hsw; subst c0;
  destruct (message_alone _ _ _ _ _ _ Hrun Hpool Hrun0) as [Hd Hun];
  split; [exact Hun|]; subst moves_to answers w'; cbv beta;
  render Hsw; transfer Hd; exact Hsw.

(** X1.  The Info menu, handoff inactive, for a message handled alone:
    1 enters Pdrb and shows its menu, 2 returns to Main and shows the
    Main menu, any other text shows the Info menu again behind the
    invalid-choice line.  Each time one message goes out and of the
    conversation only the state and the timer handle change. *)
Theorem X1_info_menu_alone L msg rest m c waits L' :
  message msg = Some m → fromMe (key msg) = false →
  let jid := remoteJid (key msg) in
  let w := world L in
  conversation_of w jid = Some c →
  state c = "info" → csActive c = false →
  run (Arrive (notify (msg :: rest)) :: alone (length (pool L)) waits) L
    = Some L' →
  pool L' = pool L →
  let w' := world L' in
  let moves_to s :=
    conversation_of w' jid
      = Some (mkConversation s false (Some (next_timer w))) in
  let answers reply :=
    outbound (trace w')
      = outbound (trace w) ++ [(jid, signed reply)] in
  unhandled L' = unhandled L ∧
  switch (messageText_of m)
    [ ("1", moves_to "pdrb" ∧ answers Rendered.pdrb);
      ("2", moves_to "main" ∧ answers Rendered.main) ]
    (moves_to "info" ∧ answers (invalid Rendered.info)).
Proof. alone_table @info_menu_uninterrupted. Qed.

(** X2.  The Pdrb menu, handoff inactive, for a message handled alone:
    1 returns to Info and shows the Info menu; any other text, 2
    included although the menu lists it as the way back, shows the Pdrb
    menu again behind the invalid-choice line. *)
Theorem X2_pdrb_menu_alone L msg rest m c waits L' :
  message msg = Some m → fromMe (key msg) = false →
  let jid := remoteJid (key msg) in
  let w := world L in
  conversation_of w jid = Some c →
  state c = "pdrb" → csActive c = false →
  run (Arrive (notify (msg :: rest)) :: alone (length (pool L)) waits) L
    = Some L' →
  pool L' = pool L →
  let w' := world L' in
  let moves_to s :=
    conversation_of w' jid
      = Some (mkConversation s false (Some (next_timer w))) in
  let answers reply :=
    outbound (trace w')
      = outbound (trace w) ++ [(jid, signed reply)] in
  unhandled L' = unhandled L ∧
  switch (messageText_of m)
    [ ("1", moves_to "info" ∧ answers Rendered.info) ]
    (moves_to "pdrb" ∧ answers (invalid Rendered.pdrb)).
Proof. alone_table @pdrb_menu_uninterrupted. Qed.

(** X3.  The Dummy menu, handoff inactive, for a message handled
    alone: 1 enters Dummy Submenu 1, 2 returns to Main, any other text
    shows the Dummy menu again behind the invalid-choice line. *)
Theorem X3_dummy_menu_alone L msg rest m c waits L' :
  message msg = Some m → fromMe (key msg) = false →
  let jid := remoteJid (key msg) in
  let w := world L in
  conversation_of w jid = Some c →
  state c = "dummyMenu" → csActive c = false →
  run (Arrive (notify (msg :: rest)) :: alone (length (pool L)) waits) L
    = Some L' →
  pool L' = pool L →
  let w' := world L' in
  let moves_to s :=
    conversation_of w' jid
      = Some (mkConversation s false (Some (next_timer w))) in
  let answers reply :=
    outbound (trace w')
      = outbound (trace w) ++ [(jid, signed reply)] in
  unhandled L' = unhandled L ∧
  switch (messageText_of m)
    [ ("1", moves_to "dummySubmenu1" ∧ answers Rendered.dummySubmenu1);
      ("2", moves_to "main" ∧ answers Rendered.main) ]
    (moves_to "dummyMenu" ∧ answers (invalid Rendered.dummyMenu)).
Proof. alone_table @dummy_menu_uninterrupted. Qed.

(** X4.  Dummy Submenu 1, handoff inactive, for a message handled
    alone: 1 returns to the Dummy menu; any other text shows the
    submenu again behind the invalid-choice line. *)
Theorem X4_dummy_submenu_alone L msg rest m c waits L' :
  message msg = Some m → fromMe (key msg) = false →
  let jid := remoteJid (key msg) in
  let w := world L in
  conversation_of w jid = Some c →
  state c = "dummySubmenu1" → csActive c = false →
  run (Arrive (notify (msg :: rest)) :: alone (length (pool L)) waits) L
    = Some L' →
  pool L' = pool L →
  let w' := world L' in
  let moves_to s :=
    conversation_of w' jid
      = Some (mkConversation s false (Some (next_timer w))) in
  let answers reply :=
    outbound (trace w')
      = outbound (trace w) ++ [(jid, signed reply)] in
  unhandled L' = unhandled L ∧
  switch (messageText_of m)
    [ ("1", moves_to "dummyMenu" ∧ answers Rendered.dummyMenu) ]
    (moves_to "dummySubmenu1" ∧
     answers (invalid Rendered.dummySubmenu1)).
Proof. alone_table @dummy_submenu_uninterrupted. Qed.

(** X5.  The Produk menu, handoff inactive, for a message handled
    alone: 1 enters Produk 1 and shows its detail menu; 2 and 3 stay in
    Produk and show the Produk menu again, without the invalid-choice
    line; 4 returns to Main; any other text shows the Produk menu
    behind the invalid-choice line. *)
Theorem X5_produk_menu_alone L msg rest m c waits L' :
  message msg = Some m → fromMe (key msg) = false →
  let jid := remoteJid (key msg) in
  let w := world L in
  conversation_of w jid = Some c →
  state c = "produk" → csActive c = false →
  run (Arrive (notify (msg :: rest)) :: alone (length (pool L)) waits) L
    = Some L' →
  pool L' = pool L →
  let w' := world L' in
  let moves_to s :=
    conversation_of w' jid
      = Some (mkConversation s false (Some (next_timer w))) in
  let answers reply :=
    outbound (trace w')
      = outbound (trace w) ++ [(jid, signed reply)] in
  unhandled L' = unhandled L ∧
  switch (messageText_of m)
    [ ("1", moves_to "produk1" ∧ answers Rendered.produk1);
      ("2", moves_to "produk" ∧ answers Rendered.produk);
      ("3", moves_to "produk" ∧ answers Rendered.produk);
      ("4", moves_to "main" ∧ answers Rendered.main) ]
    (moves_to "produk" ∧ answers (invalid Rendered.produk)).
Proof. alone_table @produk_menu_uninterrupted. Qed.

(** X6.  The Produk 1 menu, handoff inactive, for a message handled
    alone: 1 returns to Produk; any other text shows the detail menu
    again behind the invalid-choice line. *)
Theorem X6_produk1_menu_alone L msg rest m c waits L' :
  message msg = Some m → fromMe (key msg) = false →
  let jid := remoteJid (key msg) in
  let w := world L in
  conversation_of w jid = Some c →
  state c = "produk1" → csActive c = false →
  run (Arrive (notify (msg :: rest)) :: alone (length (pool L)) waits) L
    = Some L' →
  pool L' = pool L →
  let w' := world L' in
  let moves_to s :=
    conversation_of w' jid
      = Some (mkConversation s false (Some (next_timer w))) in
  let answers reply :=
    outbound (trace w')
      = outbound (trace w) ++ [(jid, signed reply)] in
  unhandled L' = unhandled L ∧
  switch (messageText_of m)
    [ ("1", moves_to "produk" ∧ answers Rendered.produk) ]
    (moves_to "produk1" ∧ answers (invalid Rendered.produk1)).
Proof. alone_table @produk1_menu_uninterrupted. Qed.

(** X7.  Should a conversation hold a state that is none of the seven,
    the [default] branch of [handleMessage] brings it back: whatever
    the text of a message handled alone, the state becomes main and the
    Main menu is sent, without the invalid-choice line. *)
Theorem X7_unknown_state_alone L msg rest m c waits L' :
  message msg = Some m → fromMe (key msg) = false →
  let jid := remoteJid (key msg) in
  let w := world L in
  conversation_of w jid = Some c →
  state c ∉ states → csActive c = false →
  run (Arrive (notify (msg :: rest)) :: alone (length (pool L)) waits) L
    = Some L' →
  pool L' = pool L →
  let w' := world L' in
  unhandled L' = unhandled L ∧
  conversation_of w' jid
    = Some (mkConversation "main" false (Some (next_timer w))) ∧
  outbound (trace w') =
    outbound (trace w) ++ [(jid, signed Rendered.main)].
Proof.
  intros Hm Hfrom jid w Hc Hst Hcs Hrun Hpool w'.
  destruct (unknown_state_uninterrupted w msg m c Hm Hfrom Hc Hst Hcs)
    as (w0 & Hrun0 & Hconv & Hout).
  destruct (message_alone _ _ _ _ _ _ Hrun Hpool Hrun0) as [Hd Hun].
  split; [exact Hun|]. subst w'. render Hout. transfer Hd. by split.
Qed.

(** *** What the listener can throw *)

(** X9.  In a world that satisfies the invariants of the store and of
    the timers, the listener of ['messages.upsert'], when its call runs
    alone, throws in exactly one case: a notify batch that holds no
    message, where [handleMessage] is called on [undefined].  It then
    throws a [TypeError] before anything is logged or changed.  No
    failure of the spreadsheet or of the transport makes it throw. *)
Theorem X9_rejections_alone L m waits L' :
  store_ok (world L) → timers_ok (world L) →
  run (Arrive m :: alone (length (pool L)) waits) L = Some L' →
  pool L' = pool L →
  (unhandled L' = unhandled L ↔
   ¬ (messages m = Some [] ∧ type m = "notify")) ∧
  (unhandled L' ≠ unhandled L →
   unhandled L' = unhandled L ++ [TypeError] ∧
   conversations (world L') = conversations (world L) ∧
   heap (world L') = heap (world L) ∧
   trace (world L') = trace (world L)).
Proof.
  intros Hok Hti Hrun Hpool. destruct L as [w suspended failures].
  cbn [world pool unhandled] in *.
  destruct (arrival_alone _ _ _ _ _ _ Hrun Hpool) as [Hd Hun].
  destruct (listener_uninterrupted w m Hok Hti) as [Hnormal Hthrow].
  destruct (on_messages_upsert m w) as [[[]|e] w0] eqn:Hrun0;
    cbn [fst snd thrown] in *.
  - rewrite app_nil_r in Hun. split; [|done].
    split; [intros _; by apply Hnormal | done].
  - destruct Hthrow as [Hthrow _]. injection (Hthrow ltac:(done)) as -> ->.
    assert (failures ++ [TypeError] ≠ failures) as Hne.
    { intros Heq%(f_equal length). rewrite length_app in Heq. cbn in Heq. lia. }
    split.
    + split; [intros Heq; by rewrite Hun in Heq|].
      intros Hn. by apply Hnormal in Hn.
    + intros _. destruct Hd as (? & ? & _ & _ & _ & _ & _ & _ & ? & _). done.
Qed.

(** *** The inactivity timer *)

(** What [later] says of a timer that is older than the call, of a
    handle that is free, and of a timer the call has armed. *)
Lemma later_old n gap ts0 ts id :
  later n gap ts0 ts → (id < n)%nat → ts !! id = ts0 !! id.
Proof.
  intros Hl Hid. specialize (Hl id).
  destruct (ts0 !! id), (ts !! id); try done.
  destruct Hl as [Heq _]. by rewrite Heq.
Qed.

Lemma later_None n gap ts0 ts id :
  later n gap ts0 ts → ts0 !! id = None → ts !! id = None.
Proof.
  intros Hl Hid. specialize (Hl id). rewrite Hid in Hl.
  by destruct (ts !! id).
Qed.

Lemma later_new n gap ts0 ts id t0 :
  later n gap ts0 ts → ts0 !! id = Some t0 →
  ∃ t, ts !! id = Some t ∧ timer_jid t = timer_jid t0 ∧
       timer_due t0 ≤ timer_due t ≤ timer_due t0 + gap.
Proof.
  intros Hl Hid. specialize (Hl id). rewrite Hid in Hl.
  destruct (ts !! id) as [t|]; [|done]. exists t. by destruct Hl as (_ & ? & ?).
Qed.

(** X11.  In a world that satisfies the invariants, a message to a
    known conversation that is handled alone, whatever the state and
    the text, cancels the timer the conversation held and arms one new
    timer, for the same jid, due [INACTIVITY_TIMEOUT] after a moment
    between the arrival of the message and the end of its handler; the
    conversation object holds the new handle and every other timer is
    left exactly as it was. *)
Theorem X11_rearmed_alone L msg rest m l c waits L' :
  store_ok (world L) → timers_ok (world L) →
  message msg = Some m → fromMe (key msg) = false →
  let jid := remoteJid (key msg) in
  let w := world L in
  conversations w !! jid = Some l → heap w !! l = Some c →
  run (Arrive (notify (msg :: rest)) :: alone (length (pool L)) waits) L
    = Some L' →
  pool L' = pool L →
  let w' := world L' in
  unhandled L' = unhandled L ∧
  (∃ c', heap w' !! l = Some c' ∧ timeout c' = Some (next_timer w)) ∧
  (∃ t, timers w' !! next_timer w = Some t ∧ timer_jid t = jid ∧
        now w + INACTIVITY_TIMEOUT ≤ timer_due t
          ≤ now w' + INACTIVITY_TIMEOUT) ∧
  (∀ old, timeout c = Some old → timers w' !! old = None) ∧
  (∀ id, id ≠ next_timer w → timeout c ≠ Some id →
         timers w' !! id = timers w !! id).
Proof.
  intros Hok Hti Hm Hfrom jid w Hl Hc Hrun Hpool w'.
  destruct (rearmed_uninterrupted w msg m l c Hok Hti Hm Hfrom Hl Hc)
    as (w0 & c' & Hrun0 & Hnow & Hc' & Htm & Hnew & Hold & Hother).
  destruct (message_alone _ _ _ _ _ _ Hrun Hpool Hrun0) as [Hd Hun].
  split; [exact Hun|]. subst w'.
  pose proof Hd as (_ & Hheap & Hlater & _ & _ & Hclock & _).
  split; [exists c'; by rewrite Hheap|]. split; [|split].
  - destruct (later_new _ _ _ _ _ _ Hlater Hnew) as (t & Ht & Hjid & Hdue).
    exists t. cbn in Hjid, Hdue. split; [done|]. split; [done|]. lia.
  - intros old Ho. eapply later_None; [exact Hlater | by apply Hold].
  - intros id Hne Hnot. rewrite <- (Hother id Hne Hnot).
    destruct (decide (id < next_timer w)%nat) as [Hlt|Hge].
    + by eapply later_old.
    + assert (timers w0 !! id = None) as Hnone.
      { rewrite (Hother id Hne Hnot).
        destruct (timers w !! id) as [t|] eqn:Hid; [|done].
        destruct Hti as [Hti _]. apply Hti in Hid. fold w in Hid. lia. }
      rewrite Hnone. by eapply later_None.
Qed.

(** Every message that is not skipped arms a timer. *)
Lemma armed_uninterrupted w msg m :
  store_ok w →
  message msg = Some m → fromMe (key msg) = false →
  ∃ w', handleMessage msg w = (Normal tt, w') ∧ now w <= now w' ∧
        timers w' !! next_timer w
          = Some (mkTimer (remoteJid (key msg)) (now w' + INACTIVITY_TIMEOUT)).
Proof.
  intros [Hmap Hheap] Hm Hfrom.
  destruct (conversations w !! remoteJid (key msg)) as [l|] eqn:Hl.
  - destruct (Hmap _ _ Hl) as [c Hc].
    destruct (processed_known w msg m l c Hm Hfrom Hl Hc)
      as (w1 & w' & c' & replies & Hs & Hnow1 & Hrun & Hh & _);
      [by eapply Hheap|].
    destruct Hs as (_ & _ & _ & Hn1 & _).
    destruct Hh as (_ & Hti' & _ & Hnow' & _).
    exists w'. split; [exact Hrun|]. split; [by rewrite Hnow'|].
    by rewrite Hti', Hn1, Hnow', lookup_insert_eq.
  - destruct (handleMessage_processed msg m w Hm Hfrom)
      as (w1 & Δ & Hs & Hnow1 & _ & _ & _ & ->).
    rewrite Hl.
    destruct (handleMessage_new_run (remoteJid (key msg)) w1)
      as (w' & Hrun & _ & _ & Hh).
    destruct Hs as (_ & _ & _ & Hn1 & _).
    destruct Hh as (_ & Hti' & _ & Hnow' & _).
    exists w'. split; [exact Hrun|]. split; [by rewrite Hnow'|].
    by rewrite Hti', Hn1, Hnow', lookup_insert_eq.
Qed.

(** X12.  The timer a message arms cannot expire early.  After any
    message that is not skipped, to a known jid or a new one, has been
    handled alone, the loop at time [T] can run the expiry of the new
    timer only if [INACTIVITY_TIMEOUT] has passed since the message
    arrived, and it can as soon as [INACTIVITY_TIMEOUT] has passed
    since its handler ended. *)
Theorem X12_expiry_needs_the_full_timeout L msg rest m waits L' T :
  store_ok (world L) →
  message msg = Some m → fromMe (key msg) = false →
  run (Arrive (notify (msg :: rest)) :: alone (length (pool L)) waits) L
    = Some L' →
  pool L' = pool L →
  let expires :=
    is_Some (step (Expire (next_timer (world L)))
               (mkLoop (set_now T (world L')) (pool L') (unhandled L'))) in
  (expires → now (world L) + INACTIVITY_TIMEOUT ≤ T) ∧
  (now (world L') + INACTIVITY_TIMEOUT ≤ T → expires).
Proof.
  intros Hok Hm Hfrom Hrun Hpool expires.
  destruct (armed_uninterrupted (world L) msg m Hok Hm Hfrom)
    as (w0 & Hrun0 & Hnow & Hnew).
  destruct (message_alone _ _ _ _ _ _ Hrun Hpool Hrun0) as [Hd _].
  pose proof Hd as (_ & _ & Hlater & _).
  destruct (later_new _ _ _ _ _ _ Hlater Hnew) as (t & Ht & _ & Hdue).
  cbn [timer_due] in Hdue. subst expires.
  cbn [step world timers set_now now]. rewrite Ht. split.
  - destruct (bool_decide _) eqn:E; [|by intros [? [=]]].
    apply bool_decide_eq_true in E. lia.
  - intros HT. rewrite bool_decide_true by lia. by eexists.
Qed.


(** *** The cost of a message *)

(** X14.  With the spreadsheet client initialised, every message that
    is not skipped and is handled alone costs between one and three
    remote appends, however the spreadsheet behaves, and its handler
    does not throw. *)
Theorem X14_appends_per_message L msg rest m waits L' :
  store_ok (world L) → sheets (world L) = true →
  message msg = Some m → fromMe (key msg) = false →
  run (Arrive (notify (msg :: rest)) :: alone (length (pool L)) waits) L
    = Some L' →
  pool L' = pool L →
  unhandled L' = unhandled L ∧
  ∃ Δ, trace (world L') = trace (world L) ++ Δ ∧
       (1 <= length (attempts Δ) <= 3)%nat.
Proof.
  intros Hok Hsheets Hm Hfrom Hrun Hpool.
  destruct (logged_uninterrupted (world L) msg m Hok Hsheets Hm Hfrom)
    as (w0 & Δ & Hrun0 & Ht & Hlen & _).
  destruct (message_alone _ _ _ _ _ _ Hrun Hpool Hrun0) as [Hd Hun].
  split; [exact Hun|]. exists Δ. transfer Hd. by split.
Qed.

(** *** Starting over *)





(** *** Handoff over many messages *)



(** *** The functions run by themselves *)



















End Interleaving.

(** ** The text of a menu *)

(** X16.  The text of a menu.  For a title that is empty or begins
    with a 7-bit character other than white space, and items the last
    of which ends with such a character, [formatMenu] gives the title,
    a colon, and one line per item, numbered from 1 in the order of the
    list; the text does not end with a line feed.  With no items it is
    the title and the colon. *)
Theorem X16_formatMenu_text title items :
  starts_plain title = true →
  (∀ item, last items = Some item → ends_plain item = true) →
  formatMenu title items = title +:+ ":" +:+ numbered 0 items.
Proof.
  intros Htitle Hlast. apply formatMenu_text_clean.
  - destruct title as [|c s]; [done|]. cbn in *.
    by apply andb_prop in Htitle as [? _].
  - intros item Hitem. specialize (Hlast item Hitem).
    unfold ends_plain, ends_clean in *.
    destruct (String.rev item) as [|c s]; [done|].
    by apply andb_prop in Hlast as [? _].
Qed.

(** * Concrete runs of the loop *)


(** The worlds of the examples are worlds the loop reaches from the
    start: "a" says "hi", the append and the send settle, and time
    passes. *)
Example world_greeted_late_reached :
  run (H := reliable_host)
    [Arrive (notify [text_message "a" "hi"]); Settle 0; Settle 0; Tick 119500]
    (idle initial_world)
  = Some (idle world_greeted_late).
Proof. vm_compute. reflexivity. Qed.

Example world_handoff_late_reached :
  run (H := reliable_host)
    (Arrive (notify [text_message "a" "hi"]) :: alone 0 [0; 0] ++
     Arrive (notify [text_message "a" "2"]) :: alone 0 [0; 0] ++ [Tick 119500])
    (idle initial_world)
  = Some (idle world_handoff_late).
Proof. vm_compute. reflexivity. Qed.

Example world_ended_late_reached :
  run (H := reliable_host)
    (Arrive (notify [text_message "a" "hi"]) :: alone 0 [0; 0] ++
     Arrive (notify [text_message "a" "3"]) :: alone 0 [0; 0] ++ [Tick 119500])
    (idle initial_world)
  = Some (idle world_ended_late).
Proof. vm_compute. reflexivity. Qed.

(** The world after the greeting satisfies the invariants. *)
Lemma world_greeted_ok : store_ok world_greeted ∧ timers_ok world_greeted.
Proof.
  destruct (reachable_invariants (H := reliable_host) world_greeted
              world_greeted_reachable) as (? & ? & _).
  done.
Qed.






(** ** The claims where nothing interferes *)






(** ** The further properties where nothing interferes *)

(** "a" has said "hi" and "1" and is in Info; "2" leads back to Main. *)
Lemma X1_witness :
  let L := idle (world_after ["hi"; "1"]) in
  let L' :=
    loop_after (H := reliable_host)
      (Arrive (notify [text_message "a" "2"]) :: alone 0 [30; 200]) L in
  unhandled L' = unhandled L ∧
  conversation_of (world L') "a"
    = Some (mkConversation "main" false (Some (next_timer (world L)))) ∧
  outbound (trace (world L')) =
    outbound (trace (world L)) ++ [("a", signed Rendered.main)].
Proof.
  intros L L'.
  apply (X1_info_menu_alone (H := reliable_host) L
           (text_message "a" "2") [] (mkMessage (Some "2") None)
           (mkConversation "info" false (Some 1%nat)) [30; 200] L').
  - reflexivity.
  - reflexivity.
  - vm_compute. reflexivity.
  - reflexivity.
  - reflexivity.
  - vm_compute. reflexivity.
  - vm_compute. reflexivity.
Defined.

(** In Pdrb, "2" is not a way back although the menu lists it. *)
Lemma X2_witness :
  let L := idle (world_after ["hi"; "1"; "1"]) in
  let L' :=
    loop_after (H := reliable_host)
      (Arrive (notify [text_message "a" "2"]) :: alone 0 [30; 200]) L in
  unhandled L' = unhandled L ∧
  conversation_of (world L') "a"
    = Some (mkConversation "pdrb" false (Some (next_timer (world L)))) ∧
  outbound (trace (world L')) =
    outbound (trace (world L)) ++
    [("a", signed (invalid Rendered.pdrb))].
Proof.
  intros L L'.
  apply (X2_pdrb_menu_alone (H := reliable_host) L
           (text_message "a" "2") [] (mkMessage (Some "2") None)
           (mkConversation "pdrb" false (Some 2%nat)) [30; 200] L').
  - reflexivity.
  - reflexivity.
  - vm_compute. reflexivity.
  - reflexivity.
  - reflexivity.
  - vm_compute. reflexivity.
  - vm_compute. reflexivity.
Defined.

Lemma X3_witness :
  let L := idle (world_after ["hi"; "4"]) in
  let L' :=
    loop_after (H := reliable_host)
      (Arrive (notify [text_message "a" "1"]) :: alone 0 [30; 200]) L in
  unhandled L' = unhandled L ∧
  conversation_of (world L') "a"
    = Some (mkConversation "dummySubmenu1" false
              (Some (next_timer (world L)))) ∧
  outbound (trace (world L')) =
    outbound (trace (world L)) ++
    [("a", signed Rendered.dummySubmenu1)].
Proof.
  intros L L'.
  apply (X3_dummy_menu_alone (H := reliable_host) L
           (text_message "a" "1") [] (mkMessage (Some "1") None)
           (mkConversation "dummyMenu" false (Some 1%nat)) [30; 200] L').
  - reflexivity.
  - reflexivity.
  - vm_compute. reflexivity.
  - reflexivity.
  - reflexivity.
  - vm_compute. reflexivity.
  - vm_compute. reflexivity.
Defined.

Lemma X4_witness :
  let L := idle (world_after ["hi"; "4"; "1"]) in
  let L' :=
    loop_after (H := reliable_host)
      (Arrive (notify [text_message "a" "1"]) :: alone 0 [30; 200]) L in
  unhandled L' = unhandled L ∧
  conversation_of (world L') "a"
    = Some (mkConversation "dummyMenu" false (Some (next_timer (world L)))) ∧
  outbound (trace (world L')) =
    outbound (trace (world L)) ++
    [("a", signed Rendered.dummyMenu)].
Proof.
  intros L L'.
  apply (X4_dummy_submenu_alone (H := reliable_host) L
           (text_message "a" "1") [] (mkMessage (Some "1") None)
           (mkConversation "dummySubmenu1" false (Some 2%nat)) [30; 200] L').
  - reflexivity.
  - reflexivity.
  - vm_compute. reflexivity.
  - reflexivity.
  - reflexivity.
  - vm_compute. reflexivity.
  - vm_compute. reflexivity.
Defined.

(** In Produk, "2" shows the Produk menu again. *)
Lemma X5_witness :
  let L := idle (world_after ["hi"; "5"]) in
  let L' :=
    loop_after (H := reliable_host)
      (Arrive (notify [text_message "a" "2"]) :: alone 0 [30; 200]) L in
  unhandled L' = unhandled L ∧
  conversation_of (world L') "a"
    = Some (mkConversation "produk" false (Some (next_timer (world L)))) ∧
  outbound (trace (world L')) =
    outbound (trace (world L)) ++ [("a", signed Rendered.produk)].
Proof.
  intros L L'.
  apply (X5_produk_menu_alone (H := reliable_host) L
           (text_message "a" "2") [] (mkMessage (Some "2") None)
           (mkConversation "produk" false (Some 1%nat)) [30; 200] L').
  - reflexivity.
  - reflexivity.
  - vm_compute. reflexivity.
  - reflexivity.
  - reflexivity.
  - vm_compute. reflexivity.
  - vm_compute. reflexivity.
Defined.

Lemma X6_witness :
  let L := idle (world_after ["hi"; "5"; "1"]) in
  let L' :=
    loop_after (H := reliable_host)
      (Arrive (notify [text_message "a" "1"]) :: alone 0 [30; 200]) L in
  unhandled L' = unhandled L ∧
  conversation_of (world L') "a"
    = Some (mkConversation "produk" false (Some (next_timer (world L)))) ∧
  outbound (trace (world L')) =
    outbound (trace (world L)) ++ [("a", signed Rendered.produk)].
Proof.
  intros L L'.
  apply (X6_produk1_menu_alone (H := reliable_host) L
           (text_message "a" "1") [] (mkMessage (Some "1") None)
           (mkConversation "produk1" false (Some 2%nat)) [30; 200] L').
  - reflexivity.
  - reflexivity.
  - vm_compute. reflexivity.
  - reflexivity.
  - reflexivity.
  - vm_compute. reflexivity.
  - vm_compute. reflexivity.
Defined.

Lemma X7_witness :
  let L := idle world_lost in
  let L' :=
    loop_after (H := reliable_host)
      (Arrive (notify [text_message "a" "1"]) :: alone 0 [30; 200]) L in
  unhandled L' = unhandled L ∧
  conversation_of (world L') "a"
    = Some (mkConversation "main" false (Some (next_timer (world L)))) ∧
  outbound (trace (world L')) =
    outbound (trace (world L)) ++ [("a", signed Rendered.main)].
Proof.
  intros L L'.
  apply (X7_unknown_state_alone (H := reliable_host) L
           (text_message "a" "1") [] (mkMessage (Some "1") None)
           (mkConversation "lost" false None) [30; 200] L').
  - reflexivity.
  - reflexivity.
  - vm_compute. reflexivity.
  - compute_done.
  - reflexivity.
  - vm_compute. reflexivity.
  - vm_compute. reflexivity.
Defined.

(** A notify batch without a message. *)
Lemma X9_witness :
  let L := idle initial_world in
  let m := mkUpsert (Some []) "notify" in
  let L' := loop_after (H := reliable_host) [Arrive m] L in
  (unhandled L' = unhandled L ↔
   ¬ (messages m = Some [] ∧ type m = "notify")) ∧
  (unhandled L' ≠ unhandled L →
   unhandled L' = unhandled L ++ [TypeError] ∧
   conversations (world L') = conversations (world L) ∧
   heap (world L') = heap (world L) ∧
   trace (world L') = trace (world L)).
Proof.
  intros L m L'.
  apply (X9_rejections_alone (H := reliable_host) L m [] L').
  - exact (proj1 (reachable_invariants (H := reliable_host) _
                    reachable_initial)).
  - exact (proj1 (proj2 (reachable_invariants (H := reliable_host) _
                           reachable_initial))).
  - vm_compute. reflexivity.
  - vm_compute. reflexivity.
Defined.

Lemma X11_witness :
  let L := idle world_greeted in
  let L' :=
    loop_after (H := reliable_host)
      (Arrive (notify [text_message "a" "1"]) :: alone 0 [30; 200]) L in
  unhandled L' = unhandled L ∧
  (∃ c', heap (world L') !! 0%nat = Some c' ∧
         timeout c' = Some (next_timer (world L))) ∧
  (∃ t, timers (world L') !! next_timer (world L) = Some t ∧
        timer_jid t = "a" ∧
        now (world L) + INACTIVITY_TIMEOUT ≤ timer_due t
          ≤ now (world L') + INACTIVITY_TIMEOUT) ∧
  (∀ old, Some 0%nat = Some old → timers (world L') !! old = None) ∧
  (∀ id, id ≠ next_timer (world L) → Some 0%nat ≠ Some id →
         timers (world L') !! id = timers (world L) !! id).
Proof.
  intros L L'.
  apply (X11_rearmed_alone (H := reliable_host) L
           (text_message "a" "1") [] (mkMessage (Some "1") None) 0%nat
           (mkConversation "main" false (Some 0%nat)) [30; 200] L').
  - exact (proj1 world_greeted_ok).
  - exact (proj2 world_greeted_ok).
  - reflexivity.
  - reflexivity.
  - vm_compute. reflexivity.
  - vm_compute. reflexivity.
  - vm_compute. reflexivity.
  - vm_compute. reflexivity.
Defined.

(** The timer armed by "1", which arrived at time 0 and was handled by
    time 230, seen at time 120100. *)
Lemma X12_witness :
  let L := idle world_greeted in
  let L' :=
    loop_after (H := reliable_host)
      (Arrive (notify [text_message "a" "1"]) :: alone 0 [30; 200]) L in
  let expires :=
    is_Some (step (H := reliable_host) (Expire (next_timer (world L)))
               (mkLoop (set_now 120100 (world L')) (pool L') (unhandled L'))) in
  (expires → now (world L) + INACTIVITY_TIMEOUT ≤ 120100) ∧
  (now (world L') + INACTIVITY_TIMEOUT ≤ 120100 → expires).
Proof.
  intros L L'.
  apply (X12_expiry_needs_the_full_timeout (H := reliable_host) L
           (text_message "a" "1") [] (mkMessage (Some "1") None)
           [30; 200] L' 120100).
  - exact (proj1 world_greeted_ok).
  - reflexivity.
  - reflexivity.
  - vm_compute. reflexivity.
  - vm_compute. reflexivity.
Defined.

(** The spreadsheet rejects two appends in a row: three attempts. *)
Lemma X14_witness :
  let L := idle world_greeted in
  let L' :=
    loop_after (H := host_rejecting [1%nat; 2%nat])
      (Arrive (notify [text_message "a" "1"])
         :: alone 0 [10; 1000; 10; 2000; 10; 10]) L in
  unhandled L' = unhandled L ∧
  ∃ Δ, trace (world L') = trace (world L) ++ Δ ∧
       (1 <= length (attempts Δ) <= 3)%nat.
Proof.
  intros L L'.
  apply (X14_appends_per_message (H := host_rejecting [1%nat; 2%nat]) L
           (text_message "a" "1") [] (mkMessage (Some "1") None)
           [10; 1000; 10; 2000; 10; 10] L').
  - exact (proj1 world_greeted_ok).
  - reflexivity.
  - reflexivity.
  - reflexivity.
  - vm_compute. reflexivity.
  - vm_compute. reflexivity.
Defined.

Lemma X16_witness :
  formatMenu "Menu" MENUS.main = "Menu" +:+ ":" +:+ numbered 0 MENUS.main.
Proof.
  apply (X16_formatMenu_text "Menu" MENUS.main).
  - reflexivity.
  - intros item [= <-]. reflexivity.
Defined.



